(** * ScrollySection: the scroll-position-to-step mapping

    A shallow embedding of the [ScrollySection] React component
    (ScrollySection.tsx) and of the properties its specification states.

    - JavaScript numbers are modelled by [number]: a rational, or one of the
      three special values NaN, +Infinity, -Infinity.  Arithmetic on finite
      values is exact (no rounding, no overflow) and zero is unsigned; that is
      the reading of the specification, which calls [rawProgress] a real
      number.  The doubles of the code take the same branches, except at an
      offset that lies on the 40% mark, the 60% mark or the end of a band
      (or within rounding of it), where the rounded quotient may fall on
      either side of the threshold; the statements about the steps shown at
      given offsets are made for offsets clear of these marks
      ([off_marks]).
    - The three [useState] cells form the record [ScrollState].
    - [setTimeout] is modelled by a queue of deadlines on a logical clock in
      milliseconds; every queued callback is [setIsAnimating(false)]. *)

From Stdlib Require Import ZArith QArith Qround List Bool String Lia Lqa.
Import ListNotations.

Open Scope Q_scope.

(* ------------------------------------------------------------------ *)
(** ** JavaScript numbers *)

Module Js.

Inductive number : Type :=
| NaN
| PosInf
| NegInf
| Fin (q : Q).

Definition of_Z (z : Z) : number := Fin (inject_Z z).
Definition of_nat (n : nat) : number := of_Z (Z.of_nat n).

Definition Qlt_bool (a b : Q) : bool := negb (Qle_bool b a).

(** [x / y] *)
Definition div (x y : number) : number :=
  match x, y with
  | NaN, _ | _, NaN => NaN
  | Fin a, Fin b =>
      if Qeq_bool b 0 then
        if Qeq_bool a 0 then NaN
        else if Qlt_bool 0 a then PosInf else NegInf
      else Fin (a / b)
  | Fin _, (PosInf | NegInf) => Fin 0
  | PosInf, Fin b => if Qle_bool 0 b then PosInf else NegInf
  | NegInf, Fin b => if Qle_bool 0 b then NegInf else PosInf
  | (PosInf | NegInf), (PosInf | NegInf) => NaN
  end.

(** [x + y] *)
Definition add (x y : number) : number :=
  match x, y with
  | NaN, _ | _, NaN => NaN
  | Fin a, Fin b => Fin (a + b)
  | PosInf, NegInf | NegInf, PosInf => NaN
  | PosInf, _ | _, PosInf => PosInf
  | NegInf, _ | _, NegInf => NegInf
  end.

(** [x - y] *)
Definition sub (x y : number) : number :=
  match x, y with
  | NaN, _ | _, NaN => NaN
  | Fin a, Fin b => Fin (a - b)
  | PosInf, PosInf | NegInf, NegInf => NaN
  | PosInf, _ | _, NegInf => PosInf
  | NegInf, _ | _, PosInf => NegInf
  end.

(** [Math.floor(x)] *)
Definition floor (x : number) : number :=
  match x with
  | Fin a => of_Z (Qfloor a)
  | other => other
  end.

(** [x < y]; false as soon as one side is NaN. *)
Definition ltb (x y : number) : bool :=
  match x, y with
  | NaN, _ | _, NaN => false
  | Fin a, Fin b => Qlt_bool a b
  | NegInf, (Fin _ | PosInf) => true
  | Fin _, PosInf => true
  | _, _ => false
  end.

(** [x >= y]; false as soon as one side is NaN. *)
Definition geb (x y : number) : bool :=
  match x, y with
  | NaN, _ | _, NaN => false
  | Fin a, Fin b => Qle_bool b a
  | PosInf, _ => true
  | _, NegInf => true
  | _, _ => false
  end.

(** [x > y] *)
Definition gtb (x y : number) : bool := ltb y x.

(** [x === y] on numbers: NaN differs from everything, itself included. *)
Definition strict_eqb (x y : number) : bool :=
  match x, y with
  | Fin a, Fin b => Qeq_bool a b
  | PosInf, PosInf | NegInf, NegInf => true
  | _, _ => false
  end.

(** [x !== y] *)
Definition strict_neb (x y : number) : bool := negb (strict_eqb x y).

(** [Object.is(x, y)] on numbers (zero being unsigned here): the rationals
    are compared by value, and NaN is the same value as NaN.  React compares
    a state cell and an effect dependency with it. *)
Definition object_is (x y : number) : bool :=
  match x, y with
  | NaN, NaN | PosInf, PosInf | NegInf, NegInf => true
  | Fin a, Fin b => Qeq_bool a b
  | _, _ => false
  end.

(** Two numbers denote the same value. *)
Definition same_value (x y : number) : Prop :=
  match x, y with
  | NaN, NaN | PosInf, PosInf | NegInf, NegInf => True
  | Fin a, Fin b => a == b
  | _, _ => False
  end.

(** The integer a number denotes, when it denotes one. *)
Definition to_int (x : number) : option Z :=
  match x with
  | Fin a => if Qeq_bool a (inject_Z (Qfloor a)) then Some (Qfloor a) else None
  | _ => None
  end.

(** [arr[x]]: the element at an integer position inside the array,
    [undefined] ([None]) for every other number. *)
Definition element_at {A : Type} (arr : list A) (x : number) : option A :=
  match to_int x with
  | Some z => if (0 <=? z)%Z then nth_error arr (Z.to_nat z) else None
  | None => None
  end.

End Js.

Import Js.

Declare Scope js_scope.
Delimit Scope js_scope with js.
Infix "=v=" := same_value (at level 70, no associativity) : js_scope.
Open Scope js_scope.

(* ------------------------------------------------------------------ *)
(** ** The component's data *)

(** What a [React.ReactNode] can be, as far as its truthiness goes. *)
Inductive ReactNode : Type :=
| NodeNull
| NodeBool (b : bool)
| NodeNumber (n : number)
| NodeText (s : string)
| NodeElement (markup : string).

Record Step : Type := mkStep {
  id : Z;
  title : string;
  body : string;
  visual : option ReactNode   (* [visual?:], [None] when not given *)
}.

Inductive Direction : Type := forward | backward.

(** The three [useState] cells of the component. *)
Record ScrollState : Type := mkScrollState {
  activeIndex : number;
  isAnimating : bool;
  animationDirection : Direction
}.

(** [window.scrollY] and [window.innerHeight]. *)
Record Window : Type := mkWindow {
  scrollY : number;
  innerHeight : number
}.

(** The component instance in its host: the state cells, the clock (ms) and
    the deadlines of the [setTimeout] callbacks not yet run, oldest first. *)
Record World : Type := mkWorld {
  state : ScrollState;
  now : Z;
  timers : list Z
}.

(** [useState(0)], [useState(false)], [useState('forward')]. *)
Definition initialState : ScrollState :=
  {| activeIndex := of_Z 0;
     isAnimating := false;
     animationDirection := forward |}.

Definition mountWorld (t : Z) : World :=
  {| state := initialState; now := t; timers := [] |}.

(* ------------------------------------------------------------------ *)
(** ** handleScroll *)

Definition threshold : number := Fin (6 # 10).

Definition animationDelay : Z := 600.

Section Handler.

Variable steps : list Step.
Variable win : Window.

Definition rawProgress : number := div (scrollY win) (innerHeight win).
Definition sectionIndex : number := floor rawProgress.
Definition sectionProgress : number := sub rawProgress sectionIndex.

(** The value of [newIndex] when line 73 is reached. *)
Definition newIndex (current : number) : number :=
  if geb sectionProgress threshold
     && ltb sectionIndex (sub (of_nat (List.length steps)) (of_Z 1))
  then add sectionIndex (of_Z 1)
  else if ltb sectionProgress (sub (of_Z 1) threshold)
  then sectionIndex
  else current.

(** Whether the call changes the step ([newIndex !== activeIndex]). *)
Definition transitions (st : ScrollState) : bool :=
  strict_neb (newIndex (activeIndex st)) (activeIndex st).

Definition handleScroll (w : World) : World :=
  let st := state w in
  let new := newIndex (activeIndex st) in
  if strict_neb new (activeIndex st) then
    {| state :=
         {| activeIndex := new;
            isAnimating := true;
            animationDirection :=
              if gtb new (activeIndex st) then forward else backward |};
       now := now w;
       timers := timers w ++ [(now w + animationDelay)%Z] |}
  else w.

End Handler.

(** One queued callback runs: [setIsAnimating(false)]. *)
Definition fireTimer (st : ScrollState) : ScrollState :=
  {| activeIndex := activeIndex st;
     isAnimating := false;
     animationDirection := animationDirection st |}.

(** The clock reaches [t]: the callbacks due by then run, the others stay. *)
Definition advance (t : Z) (w : World) : World :=
  {| state := fold_left (fun st _ => fireTimer st)
                (filter (fun d => (d <=? t)%Z) (timers w)) (state w);
     now := t;
     timers := filter (fun d => negb (d <=? t)%Z) (timers w) |}.

(** The effect of [useEffect(..., [steps.length, activeIndex])] runs on mount
    and again whenever [activeIndex] changed: it calls [handleScroll()]. *)
Definition runEffect (steps : list Step) (win : Window) (w : World) : World :=
  handleScroll steps win w.

(** A scroll event: the listener runs; when the render that follows sees
    another [activeIndex] (the dependency array is compared with
    [Object.is]), the effect is run again, with the new value. *)
Definition scrollEvent (steps : list Step) (win : Window) (w : World) : World :=
  let w' := handleScroll steps win w in
  if object_is (activeIndex (state w')) (activeIndex (state w)) then w'
  else runEffect steps win w'.

(** The component is mounted at time [t] with the window showing [win]. *)
Definition mount (steps : list Step) (win : Window) (t : Z) : World :=
  runEffect steps win (mountWorld t).

(* ------------------------------------------------------------------ *)
(** ** Rendering *)

(** JavaScript truthiness of a node. *)
Definition truthy (n : ReactNode) : bool :=
  match n with
  | NodeNull => false
  | NodeBool b => b
  | NodeNumber (Fin q) => negb (Qeq_bool q 0)
  | NodeNumber NaN => false
  | NodeNumber _ => true
  | NodeText s => negb (String.eqb s EmptyString)
  | NodeElement _ => true
  end.

(** What the inner [div] shows: the custom visual, or the default layout with
    the children of its [h2] and [p] ([None] is [undefined]: React renders
    nothing for it). *)
Inductive Content : Type :=
| CustomVisual (v : ReactNode)
| DefaultLayout (h2 : option string) (p : option string).

Record View : Type := mkView {
  key : number;
  animationClass : string;
  content : Content;
  spacers : list Z   (* the keys of the [h-screen] spacer blocks *)
}.

(** [steps[activeIndex]] *)
Definition currentStep (steps : list Step) (st : ScrollState) : option Step :=
  element_at steps (activeIndex st).

(** [currentStep?.visual || <>...</>] *)
Definition renderContent (cur : option Step) : Content :=
  match option_map visual cur with
  | Some (Some v) =>
      if truthy v then CustomVisual v
      else DefaultLayout (option_map title cur) (option_map body cur)
  | _ => DefaultLayout (option_map title cur) (option_map body cur)
  end.

Definition render (steps : list Step) (st : ScrollState) : View :=
  {| key := activeIndex st;
     animationClass :=
       if isAnimating st then
         match animationDirection st with
         | forward => "animate-slide-up-fade-in"
         | backward => "animate-slide-down-fade-in"
         end
       else "";
     content := renderContent (currentStep steps st);
     spacers := map id steps |}.

(** Whether a number is a position inside an array of [n] elements. *)
Definition valid_index (n : nat) (x : number) : bool :=
  match to_int x with
  | Some z => (0 <=? z)%Z && (z <? Z.of_nat n)%Z
  | None => false
  end.

(** The window of a page scrolled to offset [s] in a viewport of height [h]. *)
Definition window_at (s h : Q) : Window :=
  {| scrollY := Fin s; innerHeight := Fin h |}.

(** A state showing step [k], at rest. *)
Definition resting (k : Z) : ScrollState :=
  {| activeIndex := of_Z k;
     isAnimating := false;
     animationDirection := forward |}.

(** The demo's page has two steps. *)
Definition demoSteps : list Step :=
  [ mkStep 0 "AaaR" "" (Some (NodeElement "div"));
    mkStep 1 "start" "" (Some (NodeElement "div")) ].

Definition threeSteps : list Step :=
  [ mkStep 0 "one" "first" None; mkStep 1 "two" "second" None;
    mkStep 2 "three" "third" None ].

(* ------------------------------------------------------------------ *)
(** ** Scrolling sessions *)

(** The worlds after each of the scroll events at the given offsets, one
    after the other, in a viewport of height [h]. *)
Fixpoint scrollThrough (steps : list Step) (h : Q) (offsets : list Q)
    (w : World) : list World :=
  match offsets with
  | [] => []
  | s :: rest =>
      let w' := scrollEvent steps (window_at s h) w in
      w' :: scrollThrough steps h rest w'
  end.

(** The component is mounted at time [t] on a page at the first offset, and
    the page is then scrolled through the other offsets. *)
Definition session (steps : list Step) (h : Q) (offsets : list Q) (t : Z)
    : list World :=
  match offsets with
  | [] => []
  | s0 :: rest =>
      let w0 := mount steps (window_at s0 h) t in
      w0 :: scrollThrough steps h rest w0
  end.

(** The step shown in each world, read as an integer. *)
Definition activeIndices (tr : list World) : list (option Z) :=
  map (fun w => to_int (activeIndex (state w))) tr.

(** The steps visited, in order: consecutive repetitions count once. *)
Fixpoint visited (zs : list Z) : list Z :=
  match zs with
  | [] => []
  | z :: rest =>
      match rest with
      | [] => [z]
      | z' :: _ => if (z =? z')%Z then visited rest else z :: visited rest
      end
  end.

(** Offsets that never decrease and grow by at most [delta] per event. *)
Fixpoint forward_scroll (delta : Q) (offsets : list Q) : Prop :=
  match offsets with
  | [] => True
  | s1 :: rest =>
      match rest with
      | [] => True
      | s2 :: _ => s1 <= s2 /\ s2 - s1 <= delta /\ forward_scroll delta rest
      end
  end.

(** The distance an offset has to keep from a mark, in viewport heights. *)
Definition markMargin : Q := 1 # 1000000000.

(** Whether the offset [s] keeps clear of the 40% mark, of the 60% mark and
    of the end of its band.  On a mark the exact quotient lies on the
    threshold, where the quotient [s / h] of the code, a double, may fall on
    either side of it (1400 / 1000 - 1 is 0.3999999999999999 and
    4600 / 1000 - 4 is 0.5999999999999996); the margin is far above the
    rounding of a double for any page shorter than a million viewports.
    Statements about the steps shown at given offsets are made for offsets
    clear of the marks. *)
Definition off_marks (h s : Q) : bool :=
  let f := s / h - inject_Z (Qfloor (s / h)) in
  (Qle_bool f ((4 # 10) - markMargin) || Qle_bool ((4 # 10) + markMargin) f)
  && (Qle_bool f ((6 # 10) - markMargin) || Qle_bool ((6 # 10) + markMargin) f)
  && Qle_bool f (1 - markMargin).

(** The step a forward scroll that has reached offset [s] shows: the bands
    whose 60% mark lies at or before [s], the last step at most. *)
Definition stepReached (n : nat) (h s : Q) : Z :=
  Z.min (Qfloor (s / h + (4 # 10))) (Z.of_nat n - 1).

(** Integers that stay or go up by one from each to the next. *)
Fixpoint staircase (zs : list Z) : Prop :=
  match zs with
  | [] => True
  | a :: rest =>
      match rest with
      | [] => True
      | b :: _ => (b = a \/ b = a + 1)%Z /\ staircase rest
      end
  end.

(** The [len] integers from [a] upwards. *)
Fixpoint upfrom (a : Z) (len : nat) : list Z :=
  match len with
  | O => []
  | S len' => a :: upfrom (a + 1) len'
  end.

(** [z] clamped to the interval from [lo] to [hi]. *)
Definition clamp (lo hi z : Z) : Z := Z.max lo (Z.min hi z).

(** The handler is called once for each of the given windows, in turn. *)
Definition recomputations (steps : list Step) (wins : list Window)
    (w : World) : World :=
  fold_left (fun w' win => handleScroll steps win w') wins w.

(* ------------------------------------------------------------------ *)
(** ** The life of a mounted component *)

(** What happens to a mounted component: the page is scrolled (the window
    then shows [win]), or [dt] milliseconds pass. *)
Inductive Event : Type :=
| Scrolled (win : Window)
| Elapsed (dt : nat).

Definition applyEvent (steps : list Step) (w : World) (e : Event) : World :=
  match e with
  | Scrolled win => scrollEvent steps win w
  | Elapsed dt => advance (now w + Z.of_nat dt) w
  end.

Definition runEvents (steps : list Step) (events : list Event) (w : World)
    : World :=
  fold_left (applyEvent steps) events w.

(** The step a backward scroll that has come down to offset [s] shows: the
    band of [s], or the next one while [s] is at 40% of its band or more,
    the last step at most. *)
Definition backReached (n : nat) (h s : Q) : Z :=
  Z.min (Qfloor (s / h + (6 # 10))) (Z.of_nat n - 1).

(** Offsets that never increase and go down by at most [delta] per event. *)
Fixpoint backward_scroll (delta : Q) (offsets : list Q) : Prop :=
  match offsets with
  | [] => True
  | s1 :: rest =>
      match rest with
      | [] => True
      | s2 :: _ => s2 <= s1 /\ s1 - s2 <= delta /\ backward_scroll delta rest
      end
  end.

(** Offsets that move by at most [delta] per event, up or down. *)
Fixpoint gentle_scroll (delta : Q) (offsets : list Q) : Prop :=
  match offsets with
  | [] => True
  | s1 :: rest =>
      match rest with
      | [] => True
      | s2 :: _ =>
          s2 - s1 <= delta /\ s1 - s2 <= delta /\ gentle_scroll delta rest
      end
  end.

(** Integers that stay or go down by one from each to the next. *)
Fixpoint downstairs (zs : list Z) : Prop :=
  match zs with
  | [] => True
  | a :: rest =>
      match rest with
      | [] => True
      | b :: _ => (b = a \/ b = a - 1)%Z /\ downstairs rest
      end
  end.

(** The [len] integers from [a] downwards. *)
Fixpoint downfrom (a : Z) (len : nat) : list Z :=
  match len with
  | O => []
  | S len' => a :: downfrom (a - 1) len'
  end.

(** The pending timers are those of transitions less than 600 ms old, and
    a set flag has a timer that will clear it. *)
Definition timers_in_order (w : World) : Prop :=
  Forall (fun d => (now w < d <= now w + animationDelay)%Z) (timers w)
  /\ (isAnimating (state w) = true -> timers w <> []).

(* ------------------------------------------------------------------ *)
(** ** The scroll listeners of the window *)

(** A registered listener: the closure [handleScroll] that one run of the
    effect created, with the [activeIndex] of the render it closed over. *)
Record Listener : Type := mkListener {
  listenerId : nat;
  captured : number
}.

(** The component in its window: its world, the ['scroll'] listeners of the
    window in registration order, the listener of the last effect run (the
    one its cleanup will remove; its [captured] is also the [activeIndex]
    of the dependency array of that run), and a supply of identities. *)
Record Host : Type := mkHost {
  world : World;
  listeners : list Listener;
  installed : option Listener;
  nextId : nat
}.

(** A call of the closure [l]: the body of [handleScroll] with the
    [activeIndex] that [l] closed over. *)
Definition callListener (steps : list Step) (win : Window) (l : Listener)
    (w : World) : World :=
  let new := newIndex steps win (captured l) in
  if strict_neb new (captured l) then
    {| state :=
         {| activeIndex := new;
            isAnimating := true;
            animationDirection :=
              if gtb new (captured l) then forward else backward |};
       now := now w;
       timers := timers w ++ [(now w + animationDelay)%Z] |}
  else w.

(** The body of the effect: a new closure over the current [activeIndex] is
    registered with [addEventListener] and called once. *)
Definition effectBody (steps : list Step) (win : Window) (hst : Host) : Host :=
  let l := {| listenerId := nextId hst;
              captured := activeIndex (state (world hst)) |} in
  {| world := callListener steps win l (world hst);
     listeners := listeners hst ++ [l];
     installed := Some l;
     nextId := S (nextId hst) |}.

(** The cleanup of the effect: [removeEventListener] with the closure that
    the effect run had registered. *)
Definition effectCleanup (hst : Host) : Host :=
  match installed hst with
  | Some l =>
      {| world := world hst;
         listeners :=
           filter (fun l' => negb (listenerId l' =? listenerId l)%nat)
                  (listeners hst);
         installed := None;
         nextId := nextId hst |}
  | None => hst
  end.

(** After a render: when [activeIndex] is no longer the one of the last
    effect run, the cleanup runs and the effect runs again; the call it
    makes may change the state once more, so this repeats, [fuel] times at
    most. *)
Fixpoint commit (steps : list Step) (win : Window) (fuel : nat) (hst : Host)
    : Host :=
  match fuel with
  | O => hst
  | S fuel' =>
      match installed hst with
      | Some l =>
          if object_is (activeIndex (state (world hst))) (captured l) then hst
          else commit steps win fuel' (effectBody steps win (effectCleanup hst))
      | None => hst
      end
  end.

(** The window fires ['scroll']: every registered listener is called, then
    the component renders. *)
Definition dispatchScroll (steps : list Step) (win : Window) (fuel : nat)
    (hst : Host) : Host :=
  commit steps win fuel
    {| world := fold_left (fun w l => callListener steps win l w)
                  (listeners hst) (world hst);
       listeners := listeners hst;
       installed := installed hst;
       nextId := nextId hst |}.

(** The component is mounted at time [t]: first render, first effect. *)
Definition mountHost (steps : list Step) (win : Window) (t : Z) (fuel : nat)
    : Host :=
  commit steps win fuel
    (effectBody steps win
       {| world := mountWorld t; listeners := []; installed := None;
          nextId := O |}).

(** The component is unmounted: the cleanup of the last effect run. *)
Definition unmount (hst : Host) : Host := effectCleanup hst.

(** A host between two events, as the effect leaves it: one listener, the
    installed one, closed over the current [activeIndex]. *)
Definition settled (hst : Host) : Prop :=
  exists l : Listener,
    listeners hst = [l] /\ installed hst = Some l
    /\ captured l = activeIndex (state (world hst)).

(** An event reaches the host.  A timer callback only sets [isAnimating]:
    the render that follows finds the [activeIndex] of the dependency array
    unchanged and leaves the effect alone. *)
Definition applyHostEvent (steps : list Step) (fuel : nat) (hst : Host)
    (e : Event) : Host :=
  match e with
  | Scrolled win => dispatchScroll steps win fuel hst
  | Elapsed dt =>
      {| world := advance (now (world hst) + Z.of_nat dt) (world hst);
         listeners := listeners hst;
         installed := installed hst;
         nextId := nextId hst |}
  end.

Definition runHost (steps : list Step) (fuel : nat) (events : list Event)
    (hst : Host) : Host :=
  fold_left (applyHostEvent steps fuel) events hst.

(* ------------------------------------------------------------------ *)
(** ** Numbers: basic facts *)

Lemma Qlt_bool_iff (a b : Q) : Qlt_bool a b = true <-> a < b.
Proof.
  unfold Qlt_bool. rewrite negb_true_iff.
  destruct (Qle_bool b a) eqn:E.
  - apply Qle_bool_iff in E. split; [discriminate | intro H; exfalso; lra].
  - split; [intros _ | reflexivity].
    apply Qnot_le_lt. intro H. apply Qle_bool_iff in H. congruence.
Qed.

Lemma Qlt_bool_false_iff (a b : Q) : Qlt_bool a b = false <-> b <= a.
Proof.
  unfold Qlt_bool. rewrite negb_false_iff. apply Qle_bool_iff.
Qed.

Lemma Qle_bool_false_iff (a b : Q) : Qle_bool a b = false <-> b < a.
Proof.
  rewrite <- Qlt_bool_iff. unfold Qlt_bool.
  destruct (Qle_bool a b); simpl; split; congruence.
Qed.

Lemma same_value_refl (x : number) : x =v= x.
Proof. destruct x; simpl; auto. reflexivity. Qed.

Lemma same_value_sym (x y : number) : x =v= y -> y =v= x.
Proof. destruct x, y; simpl; auto. intro H; symmetry; exact H. Qed.

Lemma same_value_trans (x y z : number) : x =v= y -> y =v= z -> x =v= z.
Proof.
  destruct x, y, z; simpl; auto; try contradiction.
  intros H1 H2. rewrite H1. exact H2.
Qed.

Lemma object_is_iff (x y : number) : object_is x y = true <-> x =v= y.
Proof.
  destruct x, y; simpl; try (split; [discriminate | contradiction]);
    try (split; auto).
  - apply Qeq_bool_eq.
  - apply Qeq_eq_bool.
Qed.

Lemma strict_eqb_same_value (x y : number) : strict_eqb x y = true -> x =v= y.
Proof.
  destruct x, y; simpl; try discriminate; auto. apply Qeq_bool_eq.
Qed.

Lemma strict_neb_false (x y : number) : strict_neb x y = false -> x =v= y.
Proof.
  unfold strict_neb. rewrite negb_false_iff. apply strict_eqb_same_value.
Qed.

Lemma strict_neb_Fin_refl (q : Q) : strict_neb (Fin q) (Fin q) = false.
Proof. unfold strict_neb. simpl. now rewrite Qeq_bool_refl. Qed.

Lemma to_int_same_value (x y : number) : x =v= y -> to_int x = to_int y.
Proof.
  destruct x as [| | |a], y as [| | |b]; simpl; try contradiction; auto.
  intro H. rewrite (Qfloor_comp _ _ H).
  replace (Qeq_bool a (inject_Z (Qfloor b)))
    with (Qeq_bool b (inject_Z (Qfloor b))); [reflexivity|].
  apply Qeqb_comp; [symmetry; exact H | reflexivity].
Qed.

Lemma to_int_of_Z (z : Z) : to_int (of_Z z) = Some z.
Proof.
  unfold of_Z, to_int. rewrite Qfloor_Z. now rewrite Qeq_bool_refl.
Qed.

Lemma valid_index_same_value (n : nat) (x y : number) :
  x =v= y -> valid_index n x = valid_index n y.
Proof. intro H. unfold valid_index. now rewrite (to_int_same_value _ _ H). Qed.

Lemma valid_index_of_Z (n : nat) (z : Z) :
  valid_index n (of_Z z) = true <-> (0 <= z < Z.of_nat n)%Z.
Proof.
  unfold valid_index. rewrite to_int_of_Z. rewrite andb_true_iff. lia.
Qed.

(* ------------------------------------------------------------------ *)
(** ** The handler: basic facts *)

Section HandlerFacts.

Variable steps : list Step.
Variable win : Window.

Lemma handleScroll_no_transition (w : World) :
  transitions steps win (state w) = false -> handleScroll steps win w = w.
Proof. unfold transitions, handleScroll. cbv zeta. now intros ->. Qed.

Lemma handleScroll_transition (w : World) :
  transitions steps win (state w) = true ->
  handleScroll steps win w =
    {| state :=
         {| activeIndex := newIndex steps win (activeIndex (state w));
            isAnimating := true;
            animationDirection :=
              if gtb (newIndex steps win (activeIndex (state w)))
                     (activeIndex (state w))
              then forward else backward |};
       now := now w;
       timers := timers w ++ [(now w + animationDelay)%Z] |}.
Proof. unfold transitions, handleScroll. cbv zeta. now intros ->. Qed.

(** Whether or not the setters run, the step shown afterwards is the value
    of [newIndex]. *)
Lemma handleScroll_activeIndex (w : World) :
  activeIndex (state (handleScroll steps win w))
    =v= newIndex steps win (activeIndex (state w)).
Proof.
  destruct (transitions steps win (state w)) eqn:T.
  - rewrite (handleScroll_transition _ T). simpl. apply same_value_refl.
  - rewrite (handleScroll_no_transition _ T).
    apply same_value_sym, strict_neb_false. exact T.
Qed.

(** When [newIndex] keeps the current value, the cell holds it unchanged. *)
Lemma handleScroll_retains (w : World) :
  newIndex steps win (activeIndex (state w)) = activeIndex (state w) ->
  activeIndex (state (handleScroll steps win w)) = activeIndex (state w).
Proof.
  intro H. destruct (transitions steps win (state w)) eqn:T.
  - rewrite (handleScroll_transition _ T). simpl. exact H.
  - now rewrite (handleScroll_no_transition _ T).
Qed.

End HandlerFacts.

(** A comparison with NaN on its left is false. *)
Lemma geb_NaN (y : number) : geb NaN y = false.
Proof. now destruct y. Qed.

Lemma ltb_NaN (y : number) : ltb NaN y = false.
Proof. now destruct y. Qed.

(** With a viewport height of zero the progress inside the band is NaN,
    whatever the scroll offset. *)
Lemma sectionProgress_zero_height (win : Window) :
  innerHeight win =v= of_Z 0 -> sectionProgress win = NaN.
Proof.
  destruct win as [s h]. simpl.
  destruct h as [| | |b]; simpl; try contradiction.
  intro Hb. apply Qeq_eq_bool in Hb.
  unfold sectionProgress, sectionIndex, rawProgress. simpl.
  destruct s as [| | |a]; simpl; auto.
  - replace (Qle_bool 0 b) with true; [reflexivity|].
    symmetry. apply Qle_bool_iff. apply Qeq_bool_eq in Hb.
    unfold inject_Z in Hb. lra.
  - replace (Qle_bool 0 b) with true; [reflexivity|].
    symmetry. apply Qle_bool_iff. apply Qeq_bool_eq in Hb.
    unfold inject_Z in Hb. lra.
  - change (inject_Z 0) with 0 in Hb. rewrite Hb.
    destruct (Qeq_bool a 0); [reflexivity|].
    destruct (Qlt_bool 0 a); reflexivity.
Qed.

Lemma gtb_of_Z (x y : number) (a b : Z) :
  x =v= of_Z a -> y =v= of_Z b -> gtb x y = (b <? a)%Z.
Proof.
  destruct x as [| | |p], y as [| | |q]; simpl; try contradiction.
  intros Hp Hq. unfold gtb, ltb.
  destruct (b <? a)%Z eqn:E.
  - apply Qlt_bool_iff. rewrite Hp, Hq. rewrite <- Zlt_Qlt. lia.
  - apply Qlt_bool_false_iff. rewrite Hp, Hq. rewrite <- Zle_Qle. lia.
Qed.

Lemma strict_neb_refl (x : number) : x <> NaN -> strict_neb x x = false.
Proof.
  destruct x; try reflexivity; [congruence|].
  intros _. apply strict_neb_Fin_refl.
Qed.

(** Queued callbacks only ever clear [isAnimating]. *)
Lemma fireTimers_isAnimating (ds : list Z) (st : ScrollState) :
  ds <> [] -> isAnimating (fold_left (fun s _ => fireTimer s) ds st) = false.
Proof.
  destruct ds as [|d ds]; [congruence|]. intros _. simpl.
  generalize (fireTimer st) (eq_refl : isAnimating (fireTimer st) = false).
  induction ds as [|d' ds IH]; intros s Hs; simpl; auto.
Qed.

Lemma fireTimers_activeIndex (ds : list Z) (st : ScrollState) :
  activeIndex (fold_left (fun s _ => fireTimer s) ds st) = activeIndex st.
Proof.
  revert st. induction ds as [|d ds IH]; intro st; simpl; auto.
  now rewrite IH.
Qed.

(** Time passing never changes the step shown. *)
Lemma advance_activeIndex (t : Z) (w : World) :
  activeIndex (state (advance t w)) = activeIndex (state w).
Proof. unfold advance. simpl. apply fireTimers_activeIndex. Qed.

Lemma advance_past_deadline (t d : Z) (w : World) :
  In d (timers w) -> (d <= t)%Z -> isAnimating (state (advance t w)) = false.
Proof.
  intros Hin Hle. unfold advance. simpl. apply fireTimers_isAnimating.
  intro E.
  assert (In d (filter (fun d0 => (d0 <=? t)%Z) (timers w))) as H.
  { apply filter_In. split; auto. now apply Z.leb_le. }
  rewrite E in H. contradiction.
Qed.

Lemma advance_before_deadlines (t : Z) (w : World) :
  Forall (fun d => (t < d)%Z) (timers w) -> state (advance t w) = state w.
Proof.
  intro H. unfold advance. simpl.
  replace (filter (fun d => (d <=? t)%Z) (timers w)) with (@nil Z);
    [reflexivity|].
  symmetry. induction H as [|d ds Hd _ IH]; simpl; auto.
  destruct (Z.leb_spec d t); [lia | exact IH].
Qed.

Lemma advance_keeps_later (t d : Z) (w : World) :
  In d (timers w) -> (t < d)%Z -> In d (timers (advance t w)).
Proof.
  intros Hin Hlt. unfold advance. simpl. apply filter_In. split; auto.
  destruct (Z.leb_spec d t); [lia | reflexivity].
Qed.

(* ------------------------------------------------------------------ *)
(** ** The initial state *)

(** C10. On mount, and for as long as no recomputation has caused a
    transition, the state is [activeIndex = 0], [isAnimating = false] and
    [direction = forward]: the direction is 'forward' although nothing has
    moved yet. *)
Theorem initial_state_until_first_transition
    (steps : list Step) (wins : list Window) (t : Z) :
  Forall (fun win => transitions steps win initialState = false) wins ->
  state (recomputations steps wins (mountWorld t))
    = {| activeIndex := of_Z 0;
         isAnimating := false;
         animationDirection := forward |}.
Proof.
  intro H. unfold recomputations.
  assert (fold_left (fun w' win => handleScroll steps win w') wins
            (mountWorld t) = mountWorld t) as ->; [|reflexivity].
  induction H as [|win wins Hwin _ IH]; simpl; auto.
  rewrite handleScroll_no_transition; auto.
Qed.

Lemma initial_state_until_first_transition_witness :
  state (recomputations demoSteps
           [window_at 0 1000; window_at 300 1000; window_at 550 1000]
           (mountWorld 0))
    = {| activeIndex := of_Z 0;
         isAnimating := false;
         animationDirection := forward |}.
Proof.
  apply (initial_state_until_first_transition demoSteps
           [window_at 0 1000; window_at 300 1000; window_at 550 1000] 0).
  repeat constructor.
Defined.

(* ------------------------------------------------------------------ *)
(** ** The hysteresis decision *)

(** C2. On every recomputation, with [sectionIndex = floor(rawProgress)] and
    [sectionProgress = rawProgress - sectionIndex]: when
    [sectionProgress >= 0.6] and [sectionIndex < N-1] the new [activeIndex]
    is [sectionIndex + 1]; otherwise, when [sectionProgress < 0.4], it is
    [sectionIndex]; otherwise the current [activeIndex] is retained
    unchanged, whatever it is.  The last case holds in particular in the
    dead zone, [0.4 <= sectionProgress < 0.6]. *)
Theorem hysteresis_decision (steps : list Step) (win : Window) (w : World) :
  let si := floor (rawProgress win) in
  let sp := sub (rawProgress win) si in
  let result := activeIndex (state (handleScroll steps win w)) in
  (if geb sp (Fin (6 # 10))
      && ltb si (sub (of_nat (List.length steps)) (of_Z 1))
   then result =v= add si (of_Z 1)
   else if ltb sp (Fin (4 # 10))
   then result =v= si
   else result = activeIndex (state w))
  /\ (geb sp (Fin (4 # 10)) = true -> ltb sp (Fin (6 # 10)) = true ->
      result = activeIndex (state w)).
Proof.
  cbv zeta.
  change (floor (rawProgress win)) with (sectionIndex win).
  change (sub (rawProgress win) (sectionIndex win)) with (sectionProgress win).
  pose proof (handleScroll_activeIndex steps win w) as Hnew.
  pose proof (handleScroll_retains steps win w) as Hkeep.
  unfold newIndex, threshold in Hnew, Hkeep.
  assert (forall x, ltb x (sub (of_Z 1) (Fin (6 # 10))) = ltb x (Fin (4 # 10)))
    as Hlow.
  { intros [| | |a]; reflexivity. }
  rewrite Hlow in Hnew, Hkeep.
  split.
  - destruct (geb (sectionProgress win) (Fin (6 # 10))
              && ltb (sectionIndex win)
                   (sub (of_nat (List.length steps)) (of_Z 1))); auto.
    destruct (ltb (sectionProgress win) (Fin (4 # 10))); auto.
  - intros Hge Hlt.
    assert (geb (sectionProgress win) (Fin (6 # 10)) = false) as E1.
    { destruct (sectionProgress win) as [| | |f]; simpl in *;
        try discriminate.
      apply Qlt_bool_iff in Hlt. apply Qle_bool_false_iff. exact Hlt. }
    assert (ltb (sectionProgress win) (Fin (4 # 10)) = false) as E2.
    { destruct (sectionProgress win) as [| | |f]; simpl in *;
        try discriminate.
      apply Qle_bool_iff in Hge. apply Qlt_bool_false_iff. exact Hge. }
    rewrite E1, E2 in Hkeep. simpl in Hkeep. auto.
Qed.

Lemma hysteresis_decision_witness :
  activeIndex (state (handleScroll demoSteps (window_at 450 1000)
                        {| state := resting 1; now := 0; timers := [] |}))
    = of_Z 1.
Proof.
  apply (proj2 (hysteresis_decision demoSteps (window_at 450 1000)
                  {| state := resting 1; now := 0; timers := [] |}));
    reflexivity.
Defined.

(* ------------------------------------------------------------------ *)
(** ** Direction of a transition *)

(** C5. On every transition the new index is stored and the direction is
    set to forward when the new index is greater than the current one, to
    backward otherwise; going from step 1 to step 2 sets forward, going from
    step 2 to step 1 sets backward. *)
Theorem direction_on_transition (steps : list Step) (win : Window) (w : World) :
  transitions steps win (state w) = true ->
  let current := activeIndex (state w) in
  let candidate := newIndex steps win current in
  let st' := state (handleScroll steps win w) in
  activeIndex st' = candidate /\
  animationDirection st'
    = (if gtb candidate current then forward else backward) /\
  (current =v= of_Z 1 -> candidate =v= of_Z 2 ->
   animationDirection st' = forward) /\
  (current =v= of_Z 2 -> candidate =v= of_Z 1 ->
   animationDirection st' = backward).
Proof.
  intro T. cbv zeta. rewrite (handleScroll_transition _ _ _ T). simpl.
  repeat split.
  - intros Hc Hn. now rewrite (gtb_of_Z _ _ _ _ Hn Hc).
  - intros Hc Hn. now rewrite (gtb_of_Z _ _ _ _ Hn Hc).
Qed.

Lemma direction_on_transition_witness :
  animationDirection
    (state (handleScroll threeSteps (window_at 1650 1000)
              {| state := resting 1; now := 0; timers := [] |})) = forward
  /\ animationDirection
       (state (handleScroll threeSteps (window_at 1350 1000)
                 {| state := resting 2; now := 0; timers := [] |})) = backward.
Proof.
  split.
  - apply (direction_on_transition threeSteps (window_at 1650 1000)
             {| state := resting 1; now := 0; timers := [] |});
      reflexivity.
  - apply (direction_on_transition threeSteps (window_at 1350 1000)
             {| state := resting 2; now := 0; timers := [] |});
      reflexivity.
Defined.

(* ------------------------------------------------------------------ *)
(** ** The animation flag *)

(** Whether the flag is set once the clock has reached [t]: it was set and
    no pending timer was due by then. *)
Lemma advance_isAnimating_iff (t : Z) (w : World) :
  isAnimating (state (advance t w)) = true
  <-> isAnimating (state w) = true /\ Forall (fun d => (t < d)%Z) (timers w).
Proof.
  split.
  - intro Hset.
    assert (Forall (fun d => (t < d)%Z) (timers w)) as Hall.
    { apply Forall_forall. intros d Hin.
      destruct (Z.lt_ge_cases t d) as [Hlt | Hge]; [exact Hlt|].
      rewrite (advance_past_deadline t d w Hin Hge) in Hset. discriminate. }
    split; [|exact Hall].
    now rewrite (advance_before_deadlines t w Hall) in Hset.
  - intros [Hset Hall]. now rewrite (advance_before_deadlines t w Hall).
Qed.

(** C6 as stated fails for a second transition that comes before the timer
    of the first has run.  After a first transition at time 0 and a second
    one at time 300, the flag is set; the timer of the first transition
    clears it at time 600, only 300 ms after the second transition, whose
    own timer is then still pending. *)
Example overlapping_transitions_reset_early :
  let w1 := handleScroll threeSteps (window_at 650 1000) (mountWorld 0) in
  let w2 := handleScroll threeSteps (window_at 1650 1000) (advance 300 w1) in
  isAnimating (state w2) = true
  /\ now w2 = 300%Z
  /\ isAnimating (state (advance 599 w2)) = true
  /\ isAnimating (state (advance 600 w2)) = false
  /\ timers (advance 600 w2) = [900%Z].
Proof. repeat split. Qed.

(** C6, amended.  [isAnimating] is true immediately after every transition,
    and a recomputation that causes no transition changes nothing,
    [isAnimating] included.  After a transition the flag stays true exactly
    until the earliest pending timer is due.  With no timer of an earlier
    transition pending, that is the timer of this transition: the flag is
    true for the 600 ms that follow and false from then on.  When a second
    transition occurs at a time [t2] before the timer of the first has run,
    the flag is set again, and it is the timer of the first transition that
    clears it, 600 ms after the first transition. *)
Theorem isAnimating_set_until_earliest_timer
    (steps : list Step) (win : Window) (w : World) :
  (transitions steps win (state w) = true ->
     isAnimating (state (handleScroll steps win w)) = true
     /\ (forall t' : Z,
           isAnimating (state (advance t' (handleScroll steps win w))) = true
           <-> (t' < now w + 600)%Z
               /\ Forall (fun d => (t' < d)%Z) (timers w))
     /\ (timers w = [] ->
         forall t' : Z,
           isAnimating (state (advance t' (handleScroll steps win w)))
           = (t' <? now w + 600)%Z))
  /\ (transitions steps win (state w) = false ->
      handleScroll steps win w = w
      /\ isAnimating (state (handleScroll steps win w))
         = isAnimating (state w))
  /\ (forall (win2 : Window) (t2 t' : Z),
        transitions steps win (state w) = true ->
        timers w = [] ->
        (now w <= t2 < now w + 600)%Z ->
        let w1 := advance t2 (handleScroll steps win w) in
        transitions steps win2 (state w1) = true ->
        isAnimating (state (handleScroll steps win2 w1)) = true
        /\ isAnimating (state (advance t' (handleScroll steps win2 w1)))
           = (t' <? now w + 600)%Z).
Proof.
  assert (forall (wn : Window) (v : World) (t' : Z),
            transitions steps wn (state v) = true ->
            (isAnimating (state (advance t' (handleScroll steps wn v))) = true
             <-> (t' < now v + 600)%Z
                 /\ Forall (fun d => (t' < d)%Z) (timers v))) as Hiff.
  { intros wn v t' T. rewrite advance_isAnimating_iff.
    rewrite (handleScroll_transition _ _ _ T). cbn [state isAnimating timers].
    rewrite Forall_app. unfold animationDelay. split.
    - intros (_ & Hold & Hnew). inversion Hnew; subst. now split.
    - intros (Hnew & Hold). split; [reflexivity|]. split; [exact Hold|].
      constructor; [exact Hnew | constructor]. }
  assert (forall (b : bool) (P : Prop) (c : bool),
            (b = true <-> P) -> (c = true <-> P) -> b = c) as Hbool.
  { intros b P c H1 H2. destruct b, c; auto.
    - symmetry. apply H2. now apply H1.
    - apply H1. now apply H2. }
  split; [|split].
  - intro T. split; [now rewrite (handleScroll_transition _ _ _ T)|].
    split; [intro t'; now apply Hiff|].
    intros Hnone t'. apply (Hbool _ (t' < now w + 600)%Z).
    + rewrite (Hiff win w t' T), Hnone. split; [tauto|].
      intro H. split; [exact H | constructor].
    + apply Z.ltb_lt.
  - intro T. now rewrite (handleScroll_no_transition _ _ _ T).
  - intros win2 t2 t' T Hnone Ht2 w1 T2.
    split; [now rewrite (handleScroll_transition _ _ _ T2)|].
    apply (Hbool _ (t' < now w + 600)%Z); [|apply Z.ltb_lt].
    rewrite (Hiff win2 w1 t' T2).
    assert (now w1 = t2 /\ timers w1 = [(now w + 600)%Z]) as [-> ->].
    { unfold w1. rewrite (handleScroll_transition _ _ _ T).
      unfold advance. cbn [now timers]. rewrite Hnone. cbn [app filter].
      unfold animationDelay.
      destruct (Z.leb_spec (now w + 600) t2); [lia|]. now split. }
    split.
    + intros (_ & Hold). now inversion Hold.
    + intro H. split; [lia|]. constructor; [exact H | constructor].
Qed.

Lemma isAnimating_set_until_earliest_timer_witness :
  isAnimating
    (state (handleScroll threeSteps (window_at 650 1000) (mountWorld 0)))
    = true
  /\ isAnimating
       (state (advance 599
                 (handleScroll threeSteps (window_at 650 1000) (mountWorld 0))))
     = true
  /\ isAnimating
       (state (advance 600
                 (handleScroll threeSteps (window_at 650 1000) (mountWorld 0))))
     = false
  /\ handleScroll threeSteps (window_at 300 1000) (mountWorld 0)
     = mountWorld 0
  /\ isAnimating
       (state (advance 600
                 (handleScroll threeSteps (window_at 1650 1000)
                    (advance 300
                       (handleScroll threeSteps (window_at 650 1000)
                          (mountWorld 0))))))
     = false.
Proof.
  pose proof (isAnimating_set_until_earliest_timer threeSteps
                (window_at 650 1000) (mountWorld 0)) as (H1 & _ & H3).
  pose proof (isAnimating_set_until_earliest_timer threeSteps
                (window_at 300 1000) (mountWorld 0)) as (_ & H2 & _).
  destruct (H1 eq_refl) as (Hset & _ & Hfor).
  split; [exact Hset|].
  split; [exact (Hfor eq_refl 599%Z)|].
  split; [exact (Hfor eq_refl 600%Z)|].
  split; [exact (proj1 (H2 eq_refl))|].
  refine (proj2 (H3 (window_at 1650 1000) 300%Z 600%Z eq_refl eq_refl _
                    eq_refl)).
  simpl. lia.
Defined.

(* ------------------------------------------------------------------ *)
(** ** A viewport of height zero *)

(** C7 as stated fails: nothing guards the division.  With a height of zero
    and a scroll offset of 500, [rawProgress] is Infinity, [sectionIndex] is
    Infinity too, and [sectionProgress] is NaN: the non-finite values do
    enter the index computation. *)
Lemma zero_height_division_unguarded :
  rawProgress (window_at 500 0) = PosInf
  /\ sectionIndex (window_at 500 0) = PosInf
  /\ sectionProgress (window_at 500 0) = NaN
  /\ ~ (exists k : Z, sectionIndex (window_at 500 0) =v= of_Z k).
Proof.
  repeat split. intros [k H]. exact H.
Qed.

(** C7, amended. With a viewport height of zero nothing guards the
    division, but [sectionProgress] is NaN for every scroll offset, both
    comparisons with it are false, and the recomputation leaves [activeIndex]
    unchanged in every state: a valid index stays valid, and nothing is
    touched at all unless [activeIndex] was NaN. *)
Theorem zero_height_keeps_activeIndex
    (steps : list Step) (win : Window) (w : World) :
  innerHeight win =v= of_Z 0 ->
  sectionProgress win = NaN
  /\ activeIndex (state (handleScroll steps win w)) = activeIndex (state w)
  /\ valid_index (List.length steps)
       (activeIndex (state (handleScroll steps win w)))
     = valid_index (List.length steps) (activeIndex (state w))
  /\ (activeIndex (state w) <> NaN -> handleScroll steps win w = w).
Proof.
  intro Hh. pose proof (sectionProgress_zero_height win Hh) as Hsp.
  assert (forall a, newIndex steps win a = a) as Hnew.
  { intro a. unfold newIndex. rewrite Hsp, geb_NaN, ltb_NaN. reflexivity. }
  assert (activeIndex (state (handleScroll steps win w))
          = activeIndex (state w)) as Hkeep.
  { apply handleScroll_retains, Hnew. }
  repeat split; auto.
  - now rewrite Hkeep.
  - intro Hnan. apply handleScroll_no_transition.
    unfold transitions. rewrite Hnew. now apply strict_neb_refl.
Qed.

Lemma zero_height_keeps_activeIndex_witness :
  activeIndex (state (handleScroll demoSteps (window_at 500 0)
                        {| state := resting 1; now := 0; timers := [] |}))
    = of_Z 1.
Proof.
  apply (zero_height_keeps_activeIndex demoSteps (window_at 500 0)
           {| state := resting 1; now := 0; timers := [] |}).
  reflexivity.
Defined.

(* ------------------------------------------------------------------ *)
(** ** Rendering an empty list of steps *)

(** C8. With an empty list of steps, indexing the current step yields
    nothing in every state, and the rendering goes through: no visual is
    shown, the default layout gets no title and no body, and there is no
    spacer. *)
Theorem empty_steps_render_nothing (st : ScrollState) :
  currentStep [] st = None
  /\ content (render [] st) = DefaultLayout None None
  /\ spacers (render [] st) = [].
Proof.
  assert (currentStep [] st = None) as H.
  { unfold currentStep, element_at.
    destruct (to_int (activeIndex st)) as [z|]; [|reflexivity].
    destruct (0 <=? z)%Z; [|reflexivity].
    now destruct (Z.to_nat z). }
  split; [exact H|]. split; [|reflexivity].
  unfold render. simpl. now rewrite H.
Qed.

(* ------------------------------------------------------------------ *)
(** ** Rational arithmetic *)

Lemma Qdiv_mult_cancel (s h : Q) : 0 < h -> (s / h) * h == s.
Proof. intro H. field. lra. Qed.

Lemma Qle_div_iff (a s h : Q) : 0 < h -> (a <= s / h <-> a * h <= s).
Proof.
  intro H. pose proof (Qdiv_mult_cancel s h H) as E.
  split; intro L.
  - rewrite <- E. apply Qmult_le_compat_r; lra.
  - now apply Qle_shift_div_l.
Qed.

Lemma Qdiv_lt_iff (b s h : Q) : 0 < h -> (s / h < b <-> s < b * h).
Proof.
  intro H. pose proof (Qdiv_mult_cancel s h H) as E.
  split; intro L.
  - rewrite <- E. apply Qmult_lt_compat_r; lra.
  - now apply Qlt_shift_div_r.
Qed.

Lemma Qfloor_unique (r : Q) (k : Z) :
  inject_Z k <= r -> r < inject_Z k + 1 -> Qfloor r = k.
Proof.
  intros H1 H2.
  pose proof (Qfloor_le r) as F1. pose proof (Qlt_floor r) as F2.
  rewrite inject_Z_plus in F2. change (inject_Z 1) with 1 in F2.
  assert (inject_Z k < inject_Z (Qfloor r) + 1) as A by lra.
  assert (inject_Z (Qfloor r) < inject_Z k + 1) as B by lra.
  change 1 with (inject_Z 1) in A, B. rewrite <- inject_Z_plus in A, B.
  rewrite <- Zlt_Qlt in A, B. lia.
Qed.

Lemma Qfloor_bounds (r : Q) :
  inject_Z (Qfloor r) <= r /\ r < inject_Z (Qfloor r) + 1.
Proof.
  split; [apply Qfloor_le|].
  pose proof (Qlt_floor r) as F. rewrite inject_Z_plus in F. exact F.
Qed.

Lemma inject_Z_pred (n : Z) : inject_Z n - inject_Z 1 == inject_Z (n - 1).
Proof.
  unfold Z.sub. rewrite inject_Z_plus, inject_Z_opp. reflexivity.
Qed.

Lemma add_of_Z (a b : Z) : add (of_Z a) (of_Z b) =v= of_Z (a + b).
Proof. simpl. now rewrite inject_Z_plus. Qed.

(* ------------------------------------------------------------------ *)
(** ** The handler on a page with a positive viewport height *)

Section PositiveHeight.

Variable steps : list Step.
Variables s h : Q.
Hypothesis h_pos : 0 < h.

Let win := window_at s h.

Lemma rawProgress_finite : rawProgress win = Fin (s / h).
Proof.
  unfold rawProgress, win, window_at. simpl.
  destruct (Qeq_bool h 0) eqn:E; [|reflexivity].
  apply Qeq_bool_eq in E. lra.
Qed.

Lemma sectionIndex_finite : sectionIndex win = of_Z (Qfloor (s / h)).
Proof. unfold sectionIndex. now rewrite rawProgress_finite. Qed.

Lemma sectionProgress_finite :
  sectionProgress win = Fin (s / h - inject_Z (Qfloor (s / h))).
Proof.
  unfold sectionProgress. now rewrite sectionIndex_finite, rawProgress_finite.
Qed.

(** The three ways [newIndex] gets its value, with [k] the band of the
    offset and [f] the progress inside it. *)
Lemma newIndex_cases (a : number) :
  let k := Qfloor (s / h) in
  let f := s / h - inject_Z k in
  let n := Z.of_nat (List.length steps) in
  ((6 # 10) <= f /\ (k < n - 1)%Z /\
   newIndex steps win a = add (of_Z k) (of_Z 1))
  \/ (f < (4 # 10) /\ newIndex steps win a = of_Z k)
  \/ ((4 # 10) <= f /\ (f < (6 # 10) \/ (n - 1 <= k)%Z) /\
      newIndex steps win a = a).
Proof.
  cbv zeta. unfold newIndex.
  rewrite sectionProgress_finite, sectionIndex_finite.
  set (k := Qfloor (s / h)). set (f := s / h - inject_Z k).
  unfold threshold, of_nat, of_Z. simpl geb. simpl ltb. simpl sub.
  destruct (Qle_bool (6 # 10) f) eqn:E1.
  - apply Qle_bool_iff in E1.
    destruct (Qlt_bool (inject_Z k)
                (inject_Z (Z.of_nat (List.length steps)) - inject_Z 1)) eqn:E2.
    + left. simpl. repeat split; auto.
      apply Qlt_bool_iff in E2. rewrite inject_Z_pred in E2.
      rewrite <- Zlt_Qlt in E2. lia.
    + right. right. simpl.
      apply Qlt_bool_false_iff in E2. rewrite inject_Z_pred in E2.
      rewrite <- Zle_Qle in E2.
      destruct (Qlt_bool f (inject_Z 1 - (6 # 10))) eqn:E3.
      * apply Qlt_bool_iff in E3. change (inject_Z 1) with 1 in E3. lra.
      * repeat split; [lra | right; lia].
  - apply Qle_bool_false_iff in E1. simpl.
    destruct (Qlt_bool f (inject_Z 1 - (6 # 10))) eqn:E3.
    + apply Qlt_bool_iff in E3. change (inject_Z 1) with 1 in E3.
      right. left. split; [lra | reflexivity].
    + apply Qlt_bool_false_iff in E3. change (inject_Z 1) with 1 in E3.
      right. right. repeat split; [lra | left; lra].
Qed.

End PositiveHeight.

Lemma length_pos {A : Type} (l : list A) :
  l <> [] -> (1 <= Z.of_nat (List.length l))%Z.
Proof. destruct l; [congruence | simpl; lia]. Qed.

(* ------------------------------------------------------------------ *)
(** ** Overscroll above the top of the page *)

(** C9. For a non-empty list of steps, a viewport height [h > 0] and a
    scroll offset [s] with [-0.4 * h <= s < 0], the floor of the negative
    [rawProgress] is [-1], the progress inside that band is at least 0.6,
    and the recomputation yields [activeIndex = 0] from every state. *)
Theorem overscroll_above_top_selects_first_step
    (steps : list Step) (s h : Q) (w : World) :
  steps <> [] -> 0 < h -> - (4 # 10) * h <= s -> s < 0 ->
  let win := window_at s h in
  sectionIndex win = of_Z (-1)
  /\ geb (sectionProgress win) (Fin (6 # 10)) = true
  /\ activeIndex (state (handleScroll steps win w)) =v= of_Z 0.
Proof.
  intros Hne Hh Hlo Hneg. cbv zeta.
  assert (- (4 # 10) <= s / h) as R1 by (now apply Qle_div_iff).
  assert (s / h < 0) as R2 by (apply Qdiv_lt_iff; [assumption | lra]).
  assert (Qfloor (s / h) = (-1)%Z) as Hk.
  { apply Qfloor_unique; unfold inject_Z; lra. }
  rewrite sectionIndex_finite, sectionProgress_finite by assumption.
  rewrite Hk. split; [reflexivity|]. split.
  - simpl. apply Qle_bool_iff. unfold inject_Z. lra.
  - eapply same_value_trans; [apply handleScroll_activeIndex|].
    pose proof (length_pos steps Hne) as Hn.
    destruct (newIndex_cases steps s h Hh (activeIndex (state w)))
      as [(_ & _ & E) | [(F & _) | (_ & [F | F] & _)]];
      rewrite Hk in *; unfold inject_Z in *.
    + rewrite E. reflexivity.
    + lra.
    + lra.
    + lia.
Qed.

Lemma overscroll_above_top_selects_first_step_witness :
  activeIndex
    (state (handleScroll demoSteps (window_at (-250) 1000)
              {| state := resting 1; now := 0; timers := [] |}))
    =v= of_Z 0.
Proof.
  apply (overscroll_above_top_selects_first_step demoSteps (-250) 1000
           {| state := resting 1; now := 0; timers := [] |});
    [discriminate | reflexivity | discriminate | reflexivity].
Defined.

(* ------------------------------------------------------------------ *)
(** ** Validity of the index *)

(** C1 as stated fails: the section index is not clamped, and the branch
    for [sectionProgress < 0.4] stores it as it is.  With two steps and a
    viewport 1000 high, a jump to offset 5000 right after mount computes
    section index 5 (clamping would give 1) and makes [activeIndex] 5,
    which is no position of [steps]. *)
Lemma far_scroll_leaves_index_range :
  let win := window_at 5000 1000 in
  let w := handleScroll demoSteps win (mountWorld 0) in
  sectionIndex win = of_Z 5
  /\ ~ sectionIndex win =v= of_Z (clamp 0 (2 - 1) (Qfloor (5000 / 1000)))
  /\ activeIndex (state w) = of_Z 5
  /\ valid_index (List.length demoSteps) (activeIndex (state w)) = false
  /\ currentStep demoSteps (state w) = None.
Proof.
  cbv zeta. split; [reflexivity|]. split; [|repeat split].
  vm_compute. discriminate.
Qed.

(** C1, amended. For a non-empty list of [N] steps, a viewport height
    [h > 0] and a scroll offset [0 <= s < N * h], the section index is
    [floor(s/h)], which lies in [[0, N-1]] so that clamping leaves it as it
    is, and the recomputation takes a valid [activeIndex] to a valid one,
    however far [s] is from the offset of the previous event. *)
Theorem scroll_within_bands_keeps_index_valid
    (steps : list Step) (s h : Q) (w : World) :
  steps <> [] -> 0 < h -> 0 <= s ->
  s < inject_Z (Z.of_nat (List.length steps)) * h ->
  valid_index (List.length steps) (activeIndex (state w)) = true ->
  let win := window_at s h in
  let n := Z.of_nat (List.length steps) in
  sectionIndex win = of_Z (Qfloor (s / h))
  /\ clamp 0 (n - 1) (Qfloor (s / h)) = Qfloor (s / h)
  /\ valid_index (List.length steps)
       (activeIndex (state (handleScroll steps win w))) = true.
Proof.
  intros Hne Hh Hs0 HsN Hvalid. cbv zeta.
  pose proof (length_pos steps Hne) as Hn.
  assert (0 <= s / h) as R1 by (apply Qle_div_iff; [assumption | lra]).
  assert (s / h < inject_Z (Z.of_nat (List.length steps))) as R2
    by (now apply Qdiv_lt_iff).
  destruct (Qfloor_bounds (s / h)) as [F1 F2].
  assert (0 <= Qfloor (s / h) <= Z.of_nat (List.length steps) - 1)%Z as Hk.
  { split.
    - assert (inject_Z (-1) < inject_Z (Qfloor (s / h))) as A
        by (unfold inject_Z at 1; lra).
      rewrite <- Zlt_Qlt in A. lia.
    - assert (inject_Z (Qfloor (s / h))
              < inject_Z (Z.of_nat (List.length steps))) as A by lra.
      rewrite <- Zlt_Qlt in A. lia. }
  split; [now apply sectionIndex_finite|].
  split; [unfold clamp; lia|].
  rewrite (valid_index_same_value _ _ _ (handleScroll_activeIndex steps _ w)).
  destruct (newIndex_cases steps s h Hh (activeIndex (state w)))
    as [(_ & K & E) | [(_ & E) | (_ & _ & E)]]; rewrite E.
  - rewrite (valid_index_same_value _ _ _ (add_of_Z _ _)).
    apply valid_index_of_Z. lia.
  - apply valid_index_of_Z. lia.
  - exact Hvalid.
Qed.

Lemma scroll_within_bands_keeps_index_valid_witness :
  valid_index 3
    (activeIndex (state (handleScroll threeSteps (window_at 2700 1000)
                           (mountWorld 0)))) = true.
Proof.
  apply (scroll_within_bands_keeps_index_valid threeSteps 2700 1000
           (mountWorld 0));
    [discriminate | reflexivity | discriminate | reflexivity | reflexivity].
Defined.

(* ------------------------------------------------------------------ *)
(** ** Redundant calls *)

(** Either a branch assigns [newIndex] a finite value that does not depend
    on the current index, or [newIndex] is the current index. *)
Lemma newIndex_assigned_or_kept (steps : list Step) (win : Window) :
  ((geb (sectionProgress win) threshold
      && ltb (sectionIndex win) (sub (of_nat (List.length steps)) (of_Z 1))
    || ltb (sectionProgress win) (sub (of_Z 1) threshold)) = true
   /\ exists q, forall a, newIndex steps win a = Fin q)
  \/ ((geb (sectionProgress win) threshold
         && ltb (sectionIndex win) (sub (of_nat (List.length steps)) (of_Z 1))
       || ltb (sectionProgress win) (sub (of_Z 1) threshold)) = false
      /\ forall a, newIndex steps win a = a).
Proof.
  unfold newIndex.
  assert (sectionProgress win <> NaN ->
          exists k, sectionIndex win = of_Z k) as Hfin.
  { unfold sectionProgress, sectionIndex.
    destruct (rawProgress win) as [| | |r]; simpl; try congruence.
    intros _. now exists (Qfloor r). }
  destruct (geb (sectionProgress win) threshold) eqn:E1.
  - destruct Hfin as [k Hk].
    { intro C. rewrite C, geb_NaN in E1. discriminate. }
    rewrite Hk.
    destruct (ltb (of_Z k) (sub (of_nat (List.length steps)) (of_Z 1))).
    + left. split; [reflexivity|]. eexists. intro a. reflexivity.
    + cbn [andb orb].
      destruct (ltb (sectionProgress win) (sub (of_Z 1) threshold)).
      * left. split; [reflexivity|]. eexists. intro a. reflexivity.
      * right. split; [reflexivity|]. intro a. reflexivity.
  - cbn [andb orb].
    destruct (ltb (sectionProgress win) (sub (of_Z 1) threshold)) eqn:E2.
    + destruct Hfin as [k Hk].
      { intro C. rewrite C, ltb_NaN in E2. discriminate. }
      rewrite Hk. left. split; [reflexivity|]. eexists. intro a. reflexivity.
    + right. split; [reflexivity|]. intro a. reflexivity.
Qed.

Lemma handleScroll_idempotent (steps : list Step) (win : Window) (w : World) :
  activeIndex (state w) <> NaN ->
  handleScroll steps win (handleScroll steps win w) = handleScroll steps win w.
Proof.
  intro Hnan. apply handleScroll_no_transition. unfold transitions.
  destruct (newIndex_assigned_or_kept steps win) as [(_ & q & Hq) | (_ & Hk)].
  - rewrite Hq. destruct (transitions steps win (state w)) eqn:T.
    + rewrite (handleScroll_transition _ _ _ T). simpl. rewrite Hq.
      apply strict_neb_Fin_refl.
    + rewrite (handleScroll_no_transition _ _ _ T).
      unfold transitions in T. now rewrite Hq in T.
  - rewrite Hk. apply strict_neb_refl.
    now rewrite (handleScroll_retains _ _ _ (Hk _)).
Qed.

(** The listener followed by the re-run effect does what one call does. *)
Lemma scrollEvent_handleScroll (steps : list Step) (win : Window) (w : World) :
  activeIndex (state w) <> NaN ->
  scrollEvent steps win w = handleScroll steps win w.
Proof.
  intro Hnan. unfold scrollEvent, runEffect. cbv zeta.
  rewrite (handleScroll_idempotent _ _ _ Hnan).
  now destruct (object_is _ _).
Qed.

(** C3 as stated fails: with two steps, a viewport 1000 high and the page
    at offset 500 (the dead zone of band 0), the recomputation ends at step
    0 from the state showing step 0 and at step 1 from the state showing
    step 1. *)
Lemma result_depends_on_current_index :
  ~ (forall (steps : list Step) (win : Window) (w1 w2 : World),
       activeIndex (state (handleScroll steps win w1))
         =v= activeIndex (state (handleScroll steps win w2))).
Proof.
  intro H.
  specialize (H demoSteps (window_at 500 1000)
                {| state := resting 0; now := 0; timers := [] |}
                {| state := resting 1; now := 0; timers := [] |}).
  vm_compute in H. discriminate H.
Qed.

(** C3, amended. The call made on mount and the calls made on scroll events
    are the same function of scroll offset, viewport height, step count and
    current [activeIndex]; calling it again on the same window changes
    nothing, so that a scroll event with its re-run effect does what a
    single call does.  Two calls on the same window and step count end with
    the same [activeIndex] whenever one of the two threshold branches
    assigns it; otherwise each call keeps the [activeIndex] it started
    from. *)
Theorem recomputation_idempotent
    (steps : list Step) (win : Window) :
  let assigned :=
    geb (sectionProgress win) (Fin (6 # 10))
      && ltb (sectionIndex win) (sub (of_nat (List.length steps)) (of_Z 1))
    || ltb (sectionProgress win) (Fin (4 # 10)) in
  (forall t, mount steps win t = handleScroll steps win (mountWorld t))
  /\ (forall w, activeIndex (state w) <> NaN ->
        handleScroll steps win (handleScroll steps win w)
          = handleScroll steps win w
        /\ scrollEvent steps win w = handleScroll steps win w)
  /\ (assigned = true ->
      forall w1 w2,
        activeIndex (state (handleScroll steps win w1))
          =v= activeIndex (state (handleScroll steps win w2)))
  /\ (assigned = false ->
      forall w,
        activeIndex (state (handleScroll steps win w)) = activeIndex (state w)).
Proof.
  cbv zeta.
  assert (forall x, ltb x (Fin (4 # 10)) = ltb x (sub (of_Z 1) threshold))
    as Hlow by (intros [| | |a]; reflexivity).
  rewrite Hlow. change (Fin (6 # 10)) with threshold.
  split; [reflexivity|]. split; [|split].
  - intros w Hnan. split.
    + now apply handleScroll_idempotent.
    + now apply scrollEvent_handleScroll.
  - intros Ha w1 w2.
    destruct (newIndex_assigned_or_kept steps win) as [(_ & q & Hq) | (C & _)];
      [|congruence].
    eapply same_value_trans; [apply handleScroll_activeIndex|].
    apply same_value_sym.
    eapply same_value_trans; [apply handleScroll_activeIndex|].
    rewrite !Hq. apply same_value_refl.
  - intros Ha w.
    destruct (newIndex_assigned_or_kept steps win) as [(C & _) | (_ & Hk)];
      [congruence|].
    apply handleScroll_retains, Hk.
Qed.

Lemma recomputation_idempotent_witness :
  (let w := {| state := resting 0; now := 0; timers := [] |} in
   handleScroll demoSteps (window_at 650 1000)
     (handleScroll demoSteps (window_at 650 1000) w)
   = handleScroll demoSteps (window_at 650 1000) w)
  /\ activeIndex
       (state (handleScroll demoSteps (window_at 650 1000)
                 {| state := resting 0; now := 0; timers := [] |}))
     =v= activeIndex
           (state (handleScroll demoSteps (window_at 650 1000)
                     {| state := resting 1; now := 7; timers := [5%Z] |}))
  /\ activeIndex
       (state (handleScroll demoSteps (window_at 500 1000)
                 {| state := resting 1; now := 0; timers := [] |}))
     = of_Z 1.
Proof.
  pose proof (recomputation_idempotent demoSteps (window_at 650 1000))
    as (_ & H1 & H2 & _).
  pose proof (recomputation_idempotent demoSteps (window_at 500 1000))
    as (_ & _ & _ & H3).
  split; [|split].
  - apply H1. discriminate.
  - apply H2. reflexivity.
  - apply (H3 eq_refl {| state := resting 1; now := 0; timers := [] |}).
Defined.

(* ------------------------------------------------------------------ *)
(** ** Scrolling forward through the page *)

Lemma same_value_of_Z_not_NaN (x : number) (z : Z) : x =v= of_Z z -> x <> NaN.
Proof. destruct x; simpl; try contradiction. congruence. Qed.

Lemma of_Z_inj (a b : Z) : of_Z a = of_Z b -> a = b.
Proof. unfold of_Z, inject_Z. congruence. Qed.

Section Forward.

Variable steps : list Step.
Variable h : Q.
Hypothesis steps_nonempty : steps <> [].
Hypothesis h_pos : 0 < h.

(** Offsets one event apart, as fractions of the viewport height. *)
Lemma progress_gap (s1 s2 : Q) :
  s1 <= s2 -> s2 - s1 <= (4 # 10) * h ->
  s1 / h <= s2 / h /\ s2 / h - s1 / h <= (4 # 10).
Proof.
  intros H1 H2. split.
  - apply Qle_div_iff; [assumption|].
    rewrite Qdiv_mult_cancel by assumption. exact H1.
  - assert (s2 / h - s1 / h == (s2 - s1) / h) as -> by (field; lra).
    now apply Qle_shift_div_r.
Qed.

Lemma stepReached_below_mark (s : Q) :
  s < inject_Z (Z.of_nat (List.length steps)) * h ->
  s / h - inject_Z (Qfloor (s / h)) < (6 # 10) ->
  stepReached (List.length steps) h s = Qfloor (s / h).
Proof.
  intros HsN Hf. unfold stepReached.
  destruct (Qfloor_bounds (s / h)) as [F1 F2].
  assert (s / h < inject_Z (Z.of_nat (List.length steps))) as R
    by (now apply Qdiv_lt_iff).
  assert (inject_Z (Qfloor (s / h))
          < inject_Z (Z.of_nat (List.length steps))) as A by lra.
  rewrite <- Zlt_Qlt in A.
  rewrite (Qfloor_unique (s / h + (4 # 10)) (Qfloor (s / h))) by lra.
  lia.
Qed.

Lemma stepReached_past_mark (s : Q) :
  (6 # 10) <= s / h - inject_Z (Qfloor (s / h)) ->
  stepReached (List.length steps) h s
    = Z.min (Qfloor (s / h) + 1) (Z.of_nat (List.length steps) - 1).
Proof.
  intro Hf. unfold stepReached.
  destruct (Qfloor_bounds (s / h)) as [F1 F2].
  rewrite (Qfloor_unique (s / h + (4 # 10)) (Qfloor (s / h) + 1));
    [reflexivity | |]; rewrite inject_Z_plus; unfold inject_Z at 2; lra.
Qed.

Lemma stepReached_start : stepReached (List.length steps) h 0 = 0%Z.
Proof.
  unfold stepReached.
  assert (0 / h == 0) as E by (field; lra).
  rewrite (Qfloor_unique (0 / h + (4 # 10)) 0);
    [| unfold inject_Z; lra | unfold inject_Z; lra].
  pose proof (length_pos steps steps_nonempty). lia.
Qed.

Lemma stepReached_last (s : Q) :
  (inject_Z (Z.of_nat (List.length steps)) - 1) * h <= s ->
  s < inject_Z (Z.of_nat (List.length steps)) * h ->
  stepReached (List.length steps) h s = (Z.of_nat (List.length steps) - 1)%Z.
Proof.
  intros Hlo Hhi. unfold stepReached.
  assert (inject_Z (Z.of_nat (List.length steps)) - 1 <= s / h) as R
    by (now apply Qle_div_iff).
  pose proof (Qfloor_resp_le _ _ R) as M.
  change 1 with (inject_Z 1) in M. rewrite inject_Z_pred, Qfloor_Z in M.
  assert (s / h <= s / h + (4 # 10)) as R' by lra.
  pose proof (Qfloor_resp_le _ _ R'). lia.
Qed.

(** From one event to the next, the step reached stays or goes up by one. *)
Lemma stepReached_next (s1 s2 : Q) :
  s1 <= s2 -> s2 - s1 <= (4 # 10) * h ->
  (stepReached (List.length steps) h s2 = stepReached (List.length steps) h s1
   \/ stepReached (List.length steps) h s2
      = stepReached (List.length steps) h s1 + 1)%Z.
Proof.
  intros H1 H2. destruct (progress_gap s1 s2 H1 H2) as [G1 G2].
  unfold stepReached.
  assert (s1 / h + (4 # 10) <= s2 / h + (4 # 10)) as M by lra.
  apply Qfloor_resp_le in M.
  destruct (Qfloor_bounds (s1 / h + (4 # 10))) as [A1 A2].
  destruct (Qfloor_bounds (s2 / h + (4 # 10))) as [B1 B2].
  assert (inject_Z (Qfloor (s2 / h + (4 # 10)))
          < inject_Z (Qfloor (s1 / h + (4 # 10)) + 2)) as C.
  { rewrite inject_Z_plus. unfold inject_Z at 3. lra. }
  rewrite <- Zlt_Qlt in C. lia.
Qed.

(** One scroll event of a forward scroll: when the step shown is the one
    reached at the previous offset, the step shown afterwards is the one
    reached at the new offset. *)
Lemma scrollEvent_stepReached (s1 s2 : Q) (w : World) :
  s1 <= s2 -> s2 - s1 <= (4 # 10) * h ->
  s2 < inject_Z (Z.of_nat (List.length steps)) * h ->
  activeIndex (state w) =v= of_Z (stepReached (List.length steps) h s1) ->
  activeIndex (state (scrollEvent steps (window_at s2 h) w))
    =v= of_Z (stepReached (List.length steps) h s2).
Proof.
  intros H1 H2 HsN Hw.
  rewrite scrollEvent_handleScroll
    by (eapply same_value_of_Z_not_NaN; exact Hw).
  eapply same_value_trans; [apply handleScroll_activeIndex|].
  destruct (progress_gap s1 s2 H1 H2) as [G1 G2].
  destruct (Qfloor_bounds (s2 / h)) as [F1 F2].
  assert (s2 / h < inject_Z (Z.of_nat (List.length steps))) as R
    by (now apply Qdiv_lt_iff).
  assert (inject_Z (Qfloor (s2 / h))
          < inject_Z (Z.of_nat (List.length steps))) as A by lra.
  rewrite <- Zlt_Qlt in A.
  destruct (newIndex_cases steps s2 h h_pos (activeIndex (state w)))
    as [(F & K & E) | [(F & E) | (F & D & E)]]; rewrite E.
  - rewrite (stepReached_past_mark s2 F).
    replace (Z.min (Qfloor (s2 / h) + 1) (Z.of_nat (List.length steps) - 1))
      with (Qfloor (s2 / h) + 1)%Z by lia.
    apply add_of_Z.
  - rewrite (stepReached_below_mark s2 HsN) by lra. apply same_value_refl.
  - eapply same_value_trans; [exact Hw|].
    replace (stepReached (List.length steps) h s1)
      with (stepReached (List.length steps) h s2);
      [apply same_value_refl|].
    destruct D as [D | D].
    + rewrite (stepReached_below_mark s2 HsN D).
      unfold stepReached.
      rewrite (Qfloor_unique (s1 / h + (4 # 10)) (Qfloor (s2 / h))) by lra.
      lia.
    + unfold stepReached.
      assert (s2 / h <= s2 / h + (4 # 10)) as M2 by lra.
      assert (s2 / h <= s1 / h + (4 # 10)) as M1 by lra.
      apply Qfloor_resp_le in M1, M2. lia.
Qed.

Lemma scrollThrough_stepReached (rest : list Q) :
  forall (s1 : Q) (w : World),
    forward_scroll ((4 # 10) * h) (s1 :: rest) ->
    Forall (fun s => s < inject_Z (Z.of_nat (List.length steps)) * h) rest ->
    activeIndex (state w) =v= of_Z (stepReached (List.length steps) h s1) ->
    activeIndices (scrollThrough steps h rest w)
      = map (fun s => Some (stepReached (List.length steps) h s)) rest.
Proof.
  induction rest as [|s2 rest IH]; intros s1 w Hfw Hall Hw; [reflexivity|].
  destruct Hfw as (H1 & H2 & Hfw). inversion Hall as [|? ? HsN Hall']; subst.
  pose proof (scrollEvent_stepReached s1 s2 w H1 H2 HsN Hw) as Hw'.
  cbn [scrollThrough]. unfold activeIndices. cbn [map]. f_equal.
  - rewrite (to_int_same_value _ _ Hw'). apply to_int_of_Z.
  - exact (IH s2 _ Hfw Hall' Hw').
Qed.

(** The steps shown during a forward scroll that starts with the mount at
    the top of the page. *)
Lemma session_stepReached (rest : list Q) (t : Z) :
  forward_scroll ((4 # 10) * h) (0 :: rest) ->
  Forall (fun s => s < inject_Z (Z.of_nat (List.length steps)) * h) rest ->
  activeIndices (session steps h (0 :: rest) t)
    = map Some (map (stepReached (List.length steps) h) (0 :: rest)).
Proof.
  intros Hfw Hall.
  assert (activeIndex (state (mount steps (window_at 0 h) t))
            =v= of_Z (stepReached (List.length steps) h 0)) as Hw.
  { assert (mount steps (window_at 0 h) t
            = scrollEvent steps (window_at 0 h) (mountWorld t)) as ->.
    { symmetry. apply scrollEvent_handleScroll. discriminate. }
    apply (scrollEvent_stepReached 0 0).
    - lra.
    - assert (0 <= (4 # 10) * h) by (apply Qmult_le_0_compat; lra). lra.
    - pose proof (length_pos steps steps_nonempty) as L.
      assert (0 < inject_Z (Z.of_nat (List.length steps))) as P
        by (change 0 with (inject_Z 0); rewrite <- Zlt_Qlt; lia).
      apply Qmult_lt_0_compat; assumption.
    - rewrite stepReached_start. apply same_value_refl. }
  unfold session. cbv zeta. simpl map. unfold activeIndices. simpl map.
  f_equal.
  - rewrite (to_int_same_value _ _ Hw). apply to_int_of_Z.
  - rewrite map_map.
    apply (scrollThrough_stepReached rest 0 _ Hfw Hall Hw).
Qed.

End Forward.

Section ForwardTransitions.

Variable steps : list Step.
Variable h : Q.
Hypothesis h_pos : 0 < h.

(** Between two consecutive events of a forward scroll the step reached
    changes exactly when the new offset lies at 60% or more of the band of
    the step reached so far, which is not the last one; the previous offset
    was then still below that mark. *)
Lemma stepReached_changes (s1 s2 : Q) :
  s1 <= s2 -> s2 - s1 <= (4 # 10) * h ->
  let k := stepReached (List.length steps) h s1 in
  let k' := stepReached (List.length steps) h s2 in
  (k' <> k <->
   (k < Z.of_nat (List.length steps) - 1)%Z
   /\ sectionIndex (window_at s2 h) = of_Z k
   /\ geb (sectionProgress (window_at s2 h)) (Fin (6 # 10)) = true)
  /\ (k' <> k -> s1 < (inject_Z k + (6 # 10)) * h).
Proof.
  intros H1 H2. cbv zeta.
  destruct (progress_gap h h_pos s1 s2 H1 H2) as [G1 G2].
  rewrite sectionIndex_finite, sectionProgress_finite by assumption.
  destruct (Qfloor_bounds (s1 / h + (4 # 10))) as [A1 A2].
  destruct (Qfloor_bounds (s2 / h + (4 # 10))) as [B1 B2].
  assert (stepReached (List.length steps) h s2
            <> stepReached (List.length steps) h s1 ->
          (Qfloor (s1 / h + (4 # 10)) < Z.of_nat (List.length steps) - 1)%Z
          /\ stepReached (List.length steps) h s1
             = Qfloor (s1 / h + (4 # 10))
          /\ Qfloor (s2 / h) = Qfloor (s1 / h + (4 # 10))
          /\ (6 # 10) <= s2 / h - inject_Z (Qfloor (s2 / h))) as Hchange.
  { intro Hne.
    destruct (stepReached_next steps h h_pos s1 s2 H1 H2) as [E | E];
      [congruence|].
    unfold stepReached in E.
    assert (Qfloor (s1 / h + (4 # 10)) < Z.of_nat (List.length steps) - 1
            /\ Qfloor (s2 / h + (4 # 10)) >= Qfloor (s1 / h + (4 # 10)) + 1)%Z
      as [L1 L2] by lia.
    assert (inject_Z (Qfloor (s1 / h + (4 # 10)) + 1)
            <= inject_Z (Qfloor (s2 / h + (4 # 10)))) as C
      by (rewrite <- Zle_Qle; lia).
    rewrite inject_Z_plus in C. unfold inject_Z at 2 in C.
    assert (Qfloor (s2 / h) = Qfloor (s1 / h + (4 # 10))) as F
      by (apply Qfloor_unique; lra).
    split; [exact L1|]. split; [unfold stepReached; lia|].
    split; [exact F|]. rewrite F. lra. }
  split; [split|].
  - intro Hne. destruct (Hchange Hne) as (L & Ek & F & P).
    rewrite Ek. split; [exact L|]. split; [now rewrite F|].
    simpl. apply Qle_bool_iff. exact P.
  - intros (L & F & P). apply of_Z_inj in F. simpl in P.
    apply Qle_bool_iff in P.
    rewrite (stepReached_past_mark steps h s2 P). rewrite F. lia.
  - intro Hne. destruct (Hchange Hne) as (L & Ek & F & P).
    rewrite Ek. apply Qdiv_lt_iff; [assumption | lra].
Qed.

End ForwardTransitions.

(** ** Lists of offsets and of steps *)

Lemma forward_scroll_adjacent (delta : Q) (l : list Q) :
  forall (i : nat) (s1 s2 : Q),
    forward_scroll delta l ->
    nth_error l i = Some s1 -> nth_error l (S i) = Some s2 ->
    s1 <= s2 /\ s2 - s1 <= delta.
Proof.
  induction l as [|a l IH]; intros i s1 s2 Hfw N1 N2.
  - destruct i; discriminate.
  - destruct l as [|b l]; [destruct i; discriminate|].
    destruct Hfw as (H1 & H2 & Hfw). destruct i as [|i].
    + simpl in N1, N2. injection N1 as <-. injection N2 as <-. now split.
    + apply (IH i); assumption.
Qed.

Lemma forward_scroll_sorted (delta : Q) (l : list Q) (j : nat) (sj : Q) :
  forward_scroll delta l -> nth_error l j = Some sj ->
  forall (d : nat) (si : Q), nth_error l (j + d) = Some si -> sj <= si.
Proof.
  intros Hfw Nj. induction d as [|d IH]; intros si Ni.
  - rewrite Nat.add_0_r in Ni. rewrite Nj in Ni. injection Ni as <-. lra.
  - rewrite Nat.add_succ_r in Ni.
    destruct (nth_error l (j + d)) as [sm|] eqn:Nm.
    + destruct (forward_scroll_adjacent delta l (j + d) sm si Hfw Nm Ni).
      specialize (IH sm eq_refl). lra.
    + apply nth_error_None in Nm.
      assert (nth_error l (S (j + d)) <> None) as C by congruence.
      apply nth_error_Some in C. lia.
Qed.

Lemma staircase_stepReached (steps : list Step) (h : Q) (l : list Q) :
  0 < h -> forward_scroll ((4 # 10) * h) l ->
  staircase (map (stepReached (List.length steps) h) l).
Proof.
  intro Hh. induction l as [|a l IH]; intro Hfw; [exact I|].
  destruct l as [|b l]; [exact I|].
  destruct Hfw as (H1 & H2 & Hfw). split.
  - exact (stepReached_next steps h Hh a b H1 H2).
  - apply IH. exact Hfw.
Qed.

Lemma last_default {A : Type} (l : list A) :
  forall x d d' : A, last (x :: l) d = last (x :: l) d'.
Proof.
  induction l as [|y l IH]; intros x d d'; [reflexivity|].
  change (last (x :: y :: l) d) with (last (y :: l) d).
  change (last (x :: y :: l) d') with (last (y :: l) d').
  apply IH.
Qed.

Lemma visited_staircase (rest : list Z) :
  forall a : Z,
    staircase (a :: rest) ->
    exists len : nat,
      visited (a :: rest) = upfrom a (S len)
      /\ last (a :: rest) a = (a + Z.of_nat len)%Z.
Proof.
  induction rest as [|b rest IH]; intros a Hst.
  - exists O. simpl. split; [reflexivity | lia].
  - destruct Hst as [Hb Hst]. destruct (IH b Hst) as (len & Hv & Hl).
    change (last (a :: b :: rest) a) with (last (b :: rest) a).
    rewrite (last_default rest b a b), Hl.
    change (visited (a :: b :: rest))
      with (if (a =? b)%Z then visited (b :: rest)
            else a :: visited (b :: rest)).
    destruct Hb as [-> | ->].
    + rewrite Z.eqb_refl. exists len. split; [assumption | reflexivity].
    + replace (a =? a + 1)%Z with false by (symmetry; apply Z.eqb_neq; lia).
      exists (S len). split.
      * rewrite Hv. reflexivity.
      * lia.
Qed.

Lemma upfrom_seq (len : nat) :
  forall start : nat,
    map Z.of_nat (seq start len) = upfrom (Z.of_nat start) len.
Proof.
  induction len as [|len IH]; intro start; [reflexivity|].
  simpl. f_equal. rewrite (IH (S start)). f_equal. lia.
Qed.

Lemma last_map_cons {A B : Type} (f : A -> B) (l : list A) (a : A) :
  last (map f (a :: l)) (f a) = f (last (a :: l) a).
Proof.
  revert a. induction l as [|b l IH]; intro a; [reflexivity|].
  change (last (map f (a :: b :: l)) (f a))
    with (last (f b :: map f l) (f a)).
  change (last (a :: b :: l) a) with (last (b :: l) a).
  rewrite (last_default _ _ (f a) (f b)), (last_default _ _ a b). apply IH.
Qed.

(** C4 as stated fails: events that skip no band can still jump over the
    stretch from the 60% mark of a band to its end.  With two steps and a
    viewport 1000 high, the offsets 0, 500, 1100 lie in the bands 0, 0, 1;
    the step changes from 0 to 1 at offset 1100, in band 1 with
    [sectionProgress = 0.1], through the branch for
    [sectionProgress < 0.4]; at no event was [sectionProgress >= 0.6]. *)
Lemma coarse_scroll_changes_step_in_next_band :
  let offsets := [0; 500; 1100] in
  forward_scroll 1000 offsets
  /\ map (fun s => Qfloor (s / 1000)) offsets = [0; 0; 1]%Z
  /\ activeIndices (session demoSteps 1000 offsets 0)
     = [Some 0; Some 0; Some 1]%Z
  /\ sectionIndex (window_at 1100 1000) = of_Z 1
  /\ sectionProgress (window_at 1100 1000) =v= Fin (1 # 10)
  /\ Forall (fun s => geb (sectionProgress (window_at s 1000)) (Fin (6 # 10))
                      = false) offsets.
Proof.
  cbv zeta. split.
  - simpl. repeat split; discriminate.
  - repeat split; repeat constructor.
Qed.

(** C4, amended. A forward scroll starts at offset 0 right after mount,
    never goes back, moves by at most 0.4 viewport heights per event (no
    stretch from the 60% mark of a band to its end is jumped over), stays
    inside the [N] bands, ends in the last one, and all its offsets keep
    clear of the 40% mark, the 60% mark and the end of a band.  During it
    [activeIndex] never decreases and shows the steps 0, 1, ..., N-1 in this
    order, each once.  An event changes the step, from [k] to [k + 1],
    exactly when its offset lies in band [k] with [sectionProgress >= 0.6]
    ([k] not being the last step); every earlier offset was below that
    mark. *)
Theorem forward_scroll_visits_each_step_once
    (steps : list Step) (h : Q) (rest : list Q) (t : Z) :
  let n := Z.of_nat (List.length steps) in
  let offsets := 0 :: rest in
  steps <> [] -> 0 < h ->
  forward_scroll ((4 # 10) * h) offsets ->
  Forall (fun s => s < inject_Z n * h) offsets ->
  (inject_Z n - 1) * h <= last offsets 0 ->
  Forall (fun s => off_marks h s = true) offsets ->
  exists zs : list Z,
    activeIndices (session steps h offsets t) = map Some zs
    /\ visited zs = map Z.of_nat (seq 0 (List.length steps))
    /\ forall (i : nat) (s : Q) (k k' : Z),
         nth_error offsets (S i) = Some s ->
         nth_error zs i = Some k -> nth_error zs (S i) = Some k' ->
         (k <= k')%Z
         /\ (k' <> k <->
             (k < n - 1)%Z
             /\ sectionIndex (window_at s h) = of_Z k
             /\ geb (sectionProgress (window_at s h)) (Fin (6 # 10)) = true)
         /\ (k' <> k ->
             k' = (k + 1)%Z
             /\ forall (j : nat) (sj : Q),
                  (j <= i)%nat -> nth_error offsets j = Some sj ->
                  sj < (inject_Z k + (6 # 10)) * h).
Proof.
  cbv zeta. intros Hne Hh Hfw Hall Hlast Hmarks.
  exists (map (stepReached (List.length steps) h) (0 :: rest)).
  split; [|split].
  - apply session_stepReached; auto. now inversion Hall.
  - pose proof (staircase_stepReached steps h (0 :: rest) Hh Hfw) as Hst.
    cbn [map] in Hst |- *.
    destruct (visited_staircase _ _ Hst) as (len & Hv & Hl).
    rewrite Hv, upfrom_seq, (stepReached_start steps h Hne Hh).
    change (Z.of_nat 0) with 0%Z. f_equal.
    change (stepReached (List.length steps) h 0
              :: map (stepReached (List.length steps) h) rest)
      with (map (stepReached (List.length steps) h) (0 :: rest)) in Hl.
    rewrite last_map_cons in Hl.
    rewrite (stepReached_start steps h Hne Hh) in Hl.
    assert (last (0 :: rest) 0
            < inject_Z (Z.of_nat (List.length steps)) * h) as HsN.
    { assert (In (last (0 :: rest) 0) (0 :: rest)) as Hin.
      { clear. generalize 0 at 1 3 as a.
        induction rest as [|b l IH]; intro a; [now left|].
        change (last (a :: b :: l) 0) with (last (b :: l) 0).
        right. apply IH. }
      rewrite Forall_forall in Hall. exact (Hall _ Hin). }
    rewrite (stepReached_last steps h Hh _ Hlast HsN) in Hl.
    pose proof (length_pos steps Hne). lia.
  - intros i s k k' Ns Nk Nk'.
    rewrite nth_error_map in Nk, Nk'. rewrite Ns in Nk'.
    simpl in Nk'. injection Nk' as <-.
    destruct (nth_error (0 :: rest) i) as [s1|] eqn:N1; [|discriminate].
    simpl in Nk. injection Nk as <-.
    destruct (forward_scroll_adjacent _ _ i s1 s Hfw N1 Ns) as [H1 H2].
    destruct (stepReached_changes steps h Hh s1 s H1 H2) as [Hiff Hfirst].
    pose proof (stepReached_next steps h Hh s1 s H1 H2) as Hnext.
    split; [lia|]. split; [exact Hiff|].
    intro Hch. split; [lia|].
    intros j sj Hj Nj.
    assert (sj <= s1) as Hle.
    { apply (forward_scroll_sorted _ (0 :: rest) j sj Hfw Nj (i - j)).
      replace (j + (i - j))%nat with i by lia. exact N1. }
    specialize (Hfirst Hch). lra.
Qed.

Lemma forward_scroll_visits_each_step_once_witness :
  exists zs : list Z,
    activeIndices
      (session threeSteps 1000 [0; 300; 700; 1100; 1500; 1700; 2100] 0)
      = map Some zs
    /\ visited zs = [0; 1; 2]%Z.
Proof.
  destruct (forward_scroll_visits_each_step_once threeSteps 1000
              [300; 700; 1100; 1500; 1700; 2100] 0)
    as (zs & Htrace & Hvisit & _).
  - discriminate.
  - reflexivity.
  - simpl. repeat split; discriminate.
  - repeat constructor.
  - simpl. discriminate.
  - repeat constructor.
  - exists zs. split; [exact Htrace | exact Hvisit].
Defined.

(* ------------------------------------------------------------------ *)
(** ** Invariants of a mounted component *)

(** A branch assigns [newIndex] an integer that does not depend on the
    current index, or [newIndex] is the current index. *)
Lemma newIndex_integer_or_kept (steps : list Step) (win : Window) :
  (exists k : Z, forall a, newIndex steps win a =v= of_Z k)
  \/ (forall a, newIndex steps win a = a).
Proof.
  unfold newIndex.
  assert (sectionProgress win <> NaN ->
          exists k, sectionIndex win = of_Z k) as Hfin.
  { unfold sectionProgress, sectionIndex.
    destruct (rawProgress win) as [| | |r]; simpl; try congruence.
    intros _. now exists (Qfloor r). }
  destruct (geb (sectionProgress win) threshold) eqn:E1.
  - destruct Hfin as [k Hk].
    { intro C. rewrite C, geb_NaN in E1. discriminate. }
    rewrite Hk.
    destruct (ltb (of_Z k) (sub (of_nat (List.length steps)) (of_Z 1))).
    + left. exists (k + 1)%Z. intro a. apply add_of_Z.
    + cbn [andb].
      destruct (ltb (sectionProgress win) (sub (of_Z 1) threshold)).
      * left. exists k. intro a. apply same_value_refl.
      * right. reflexivity.
  - cbn [andb].
    destruct (ltb (sectionProgress win) (sub (of_Z 1) threshold)) eqn:E2.
    + destruct Hfin as [k Hk].
      { intro C. rewrite C, ltb_NaN in E2. discriminate. }
      rewrite Hk. left. exists k. intro a. apply same_value_refl.
    + right. reflexivity.
Qed.

Lemma handleScroll_integer (steps : list Step) (win : Window) (w : World) :
  (exists k, activeIndex (state w) =v= of_Z k) ->
  exists k, activeIndex (state (handleScroll steps win w)) =v= of_Z k.
Proof.
  intros [k Hk].
  destruct (newIndex_integer_or_kept steps win) as [[k' Hk'] | Hkeep].
  - exists k'. eapply same_value_trans; [apply handleScroll_activeIndex|].
    apply Hk'.
  - exists k. now rewrite (handleScroll_retains _ _ _ (Hkeep _)).
Qed.

Lemma applyEvent_integer (steps : list Step) (e : Event) (w : World) :
  (exists k, activeIndex (state w) =v= of_Z k) ->
  exists k, activeIndex (state (applyEvent steps w e)) =v= of_Z k.
Proof.
  intro H. destruct e as [win | dt]; cbn [applyEvent].
  - rewrite scrollEvent_handleScroll.
    + now apply handleScroll_integer.
    + destruct H as [k Hk]. exact (same_value_of_Z_not_NaN _ _ Hk).
  - now rewrite advance_activeIndex.
Qed.

Lemma runEvents_invariant (steps : list Step) (P : World -> Prop) :
  (forall e w, P w -> P (applyEvent steps w e)) ->
  forall events w, P w -> P (runEvents steps events w).
Proof.
  intros Hstep events. unfold runEvents.
  induction events as [|e events IH]; intros w Hw; simpl; auto.
Qed.

(** X1. From mount on, through any scroll events (whatever the window
    reports, a height of zero or NaN included) and any lapse of time,
    [activeIndex] is an integer. *)
Theorem activeIndex_always_integer
    (steps : list Step) (win0 : Window) (t : Z) (events : list Event) :
  exists k : Z,
    to_int (activeIndex (state (runEvents steps events (mount steps win0 t))))
      = Some k.
Proof.
  assert (exists k,
            activeIndex (state (runEvents steps events (mount steps win0 t)))
              =v= of_Z k) as [k Hk].
  { apply (runEvents_invariant steps
             (fun w => exists k, activeIndex (state w) =v= of_Z k)).
    - intros e w. apply applyEvent_integer.
    - apply handleScroll_integer. exists 0%Z. apply same_value_refl. }
  exists k. rewrite (to_int_same_value _ _ Hk). apply to_int_of_Z.
Qed.

Lemma handleScroll_timers_in_order
    (steps : list Step) (win : Window) (w : World) :
  timers_in_order w -> timers_in_order (handleScroll steps win w).
Proof.
  intros [Hall Hflag].
  destruct (transitions steps win (state w)) eqn:T.
  - rewrite (handleScroll_transition _ _ _ T). split; simpl.
    + apply Forall_app. split; [exact Hall|].
      constructor; [unfold animationDelay; lia | constructor].
    + intros _ C. apply app_eq_nil in C. destruct C. discriminate.
  - rewrite (handleScroll_no_transition _ _ _ T). now split.
Qed.

Lemma advance_timers_in_order (dt : nat) (w : World) :
  timers_in_order w -> timers_in_order (advance (now w + Z.of_nat dt) w).
Proof.
  intros [Hall Hflag]. split; simpl.
  - rewrite Forall_forall in *. intros d Hd.
    apply filter_In in Hd. destruct Hd as [Hin Hlate].
    specialize (Hall d Hin). apply negb_true_iff, Z.leb_gt in Hlate. lia.
  - destruct (filter (fun d => (d <=? now w + Z.of_nat dt)%Z) (timers w))
      as [|d ds] eqn:Efired.
    + simpl. intro Hset. specialize (Hflag Hset).
      destruct (timers w) as [|d ds] eqn:Et; [congruence|].
      simpl in Efired |- *.
      destruct (d <=? now w + Z.of_nat dt)%Z; [discriminate|].
      simpl. discriminate.
    + rewrite fireTimers_isAnimating; discriminate.
Qed.

Lemma applyEvent_timers_in_order (steps : list Step) (e : Event) (w : World) :
  timers_in_order w -> timers_in_order (applyEvent steps w e).
Proof.
  intro H. destruct e as [win | dt]; cbn [applyEvent].
  - unfold scrollEvent, runEffect. cbv zeta.
    destruct (object_is _ _); repeat apply handleScroll_timers_in_order;
      exact H.
  - now apply advance_timers_in_order.
Qed.

(** X2. From mount on, through any scroll events and any lapse of time,
    every pending timer is due within the next 600 ms, a set [isAnimating]
    has a pending timer, and the flag is clear once 600 ms have passed
    without a scroll event: it never stays set. *)
Theorem isAnimating_never_sticks
    (steps : list Step) (win0 : Window) (t : Z) (events : list Event) :
  let w := runEvents steps events (mount steps win0 t) in
  Forall (fun d => (now w < d <= now w + 600)%Z) (timers w)
  /\ (isAnimating (state w) = true -> timers w <> [])
  /\ isAnimating (state (advance (now w + 600) w)) = false.
Proof.
  cbv zeta.
  assert (timers_in_order (runEvents steps events (mount steps win0 t)))
    as [Hall Hflag].
  { apply (runEvents_invariant steps timers_in_order).
    - intros e w. apply applyEvent_timers_in_order.
    - apply handleScroll_timers_in_order. split; [constructor|].
      simpl. discriminate. }
  split; [exact Hall|]. split; [exact Hflag|].
  destruct (timers (runEvents steps events (mount steps win0 t)))
    as [|d ds] eqn:Et.
  - rewrite advance_before_deadlines by (rewrite Et; constructor).
    destruct (isAnimating
                (state (runEvents steps events (mount steps win0 t))));
      [|reflexivity].
    now specialize (Hflag eq_refl).
  - apply (advance_past_deadline _ d).
    + rewrite Et. now left.
    + inversion Hall as [|? ? Hd _]. unfold animationDelay in Hd. lia.
Qed.

(* ------------------------------------------------------------------ *)
(** ** Where a transition can happen *)

Lemma Qlt_div_iff (a s h : Q) : 0 < h -> (a < s / h <-> a * h < s).
Proof.
  intro H. pose proof (Qdiv_mult_cancel s h H) as E.
  split; intro L.
  - rewrite <- E. apply Qmult_lt_compat_r; lra.
  - now apply Qlt_shift_div_l.
Qed.

Lemma off_marks_spec (h s : Q) :
  off_marks h s = true ->
  ~ s / h - inject_Z (Qfloor (s / h)) == (4 # 10)
  /\ ~ s / h - inject_Z (Qfloor (s / h)) == (6 # 10).
Proof.
  unfold off_marks, markMargin. cbv zeta. intro H.
  apply andb_true_iff in H. destruct H as [H _].
  apply andb_true_iff in H. destruct H as [H4 H6].
  apply orb_true_iff in H4, H6.
  split; intro E.
  - destruct H4 as [H4 | H4]; apply Qle_bool_iff in H4; lra.
  - destruct H6 as [H6 | H6]; apply Qle_bool_iff in H6; lra.
Qed.

(** A transition on a page with a positive viewport height, off the marks,
    stores the integer nearest to [s / h], which is less than 0.4 away. *)
Lemma transition_target (steps : list Step) (s h : Q) (w : World) :
  0 < h -> activeIndex (state w) <> NaN ->
  off_marks h s = true ->
  transitions steps (window_at s h) (state w) = true ->
  let v := Qfloor (s / h + (4 # 10)) in
  activeIndex (state (handleScroll steps (window_at s h) w)) =v= of_Z v
  /\ inject_Z v - (4 # 10) < s / h /\ s / h < inject_Z v + (4 # 10).
Proof.
  intros Hh Hnan Hmarks T. cbv zeta.
  destruct (off_marks_spec h s Hmarks) as [_ Hm6].
  destruct (Qfloor_bounds (s / h)) as [F1 F2].
  assert (activeIndex (state (handleScroll steps (window_at s h) w))
          = newIndex steps (window_at s h) (activeIndex (state w))) as ->
    by (now rewrite (handleScroll_transition _ _ _ T)).
  destruct (newIndex_cases steps s h Hh (activeIndex (state w)))
    as [(F & K & E) | [(F & E) | (F & D & E)]].
  - rewrite E.
    rewrite (Qfloor_unique (s / h + (4 # 10)) (Qfloor (s / h) + 1))
      by (rewrite inject_Z_plus; unfold inject_Z at 2; lra).
    split; [apply add_of_Z|].
    assert ((6 # 10) < s / h - inject_Z (Qfloor (s / h))) as F'.
    { destruct (Qle_lt_or_eq _ _ F) as [Hlt | Heq]; [exact Hlt|].
      exfalso. apply Hm6. symmetry. exact Heq. }
    rewrite inject_Z_plus. unfold inject_Z at 2 4. lra.
  - rewrite E.
    rewrite (Qfloor_unique (s / h + (4 # 10)) (Qfloor (s / h))) by lra.
    split; [apply same_value_refl | lra].
  - unfold transitions in T. rewrite E in T.
    rewrite (strict_neb_refl _ Hnan) in T. discriminate.
Qed.

(** X3. A transition snaps to the nearest band boundary: on a page with
    viewport height [h > 0] at an offset [s] clear of the marks, a
    recomputation that changes the step stores the integer
    [v = floor(s/h + 0.4)], and [s] is less than 0.4 viewport heights away
    from [v * h]: [(v - 0.4) * h < s < (v + 0.4) * h]. *)
Theorem transition_snaps_to_nearest_boundary
    (steps : list Step) (s h : Q) (w : World) :
  0 < h -> activeIndex (state w) <> NaN ->
  off_marks h s = true ->
  transitions steps (window_at s h) (state w) = true ->
  let v := Qfloor (s / h + (4 # 10)) in
  to_int (activeIndex (state (handleScroll steps (window_at s h) w))) = Some v
  /\ (inject_Z v - (4 # 10)) * h < s
  /\ s < (inject_Z v + (4 # 10)) * h.
Proof.
  intros Hh Hnan Hmarks T. cbv zeta.
  destruct (transition_target steps s h w Hh Hnan Hmarks T) as (Hv & L & U).
  split; [|split].
  - rewrite (to_int_same_value _ _ Hv). apply to_int_of_Z.
  - now apply Qlt_div_iff.
  - now apply Qdiv_lt_iff.
Qed.

Lemma transition_snaps_to_nearest_boundary_witness :
  to_int (activeIndex
            (state (handleScroll threeSteps (window_at 1650 1000)
                      {| state := resting 0; now := 0; timers := [] |})))
    = Some 2%Z.
Proof.
  apply (transition_snaps_to_nearest_boundary threeSteps 1650 1000
           {| state := resting 0; now := 0; timers := [] |});
    [reflexivity | discriminate | reflexivity | reflexivity].
Defined.

(** X4. The hysteresis is 0.2 viewport heights wide: when a recomputation
    at offset [s1] changes the step to [v1] and one at offset [s2] changes
    it to a higher step [v2], both offsets being clear of the marks, then
    [s2] is more than [0.2 * h] beyond [s1], whatever states the two start
    from.  Moving the page back and forth by [0.2 * h] or less between
    offsets clear of the marks cannot make the step flip. *)
Theorem transitions_to_different_steps_are_apart
    (steps : list Step) (h s1 s2 : Q) (w1 w2 : World) (v1 v2 : Z) :
  0 < h ->
  activeIndex (state w1) <> NaN -> activeIndex (state w2) <> NaN ->
  off_marks h s1 = true -> off_marks h s2 = true ->
  transitions steps (window_at s1 h) (state w1) = true ->
  transitions steps (window_at s2 h) (state w2) = true ->
  to_int (activeIndex (state (handleScroll steps (window_at s1 h) w1)))
    = Some v1 ->
  to_int (activeIndex (state (handleScroll steps (window_at s2 h) w2)))
    = Some v2 ->
  (v1 < v2)%Z ->
  (2 # 10) * h < s2 - s1.
Proof.
  intros Hh Hn1 Hn2 Hm1 Hm2 T1 T2 E1 E2 Hlt.
  destruct (transition_target steps s1 h w1 Hh Hn1 Hm1 T1) as (Hv1 & _ & U1).
  destruct (transition_target steps s2 h w2 Hh Hn2 Hm2 T2) as (Hv2 & L2 & _).
  rewrite (to_int_same_value _ _ Hv1), to_int_of_Z in E1.
  rewrite (to_int_same_value _ _ Hv2), to_int_of_Z in E2.
  assert (Qfloor (s1 / h + (4 # 10)) = v1) as F1 by congruence.
  assert (Qfloor (s2 / h + (4 # 10)) = v2) as F2 by congruence.
  rewrite F1 in U1. rewrite F2 in L2.
  assert (inject_Z (v1 + 1) <= inject_Z v2) as Hz
    by (rewrite <- Zle_Qle; lia).
  rewrite inject_Z_plus in Hz. unfold inject_Z at 2 in Hz.
  apply Qlt_div_iff; [assumption|].
  assert ((s2 - s1) / h == s2 / h - s1 / h) as -> by (field; lra).
  lra.
Qed.

Lemma transitions_to_different_steps_are_apart_witness :
  (2 # 10) * 1000 < 650 - 350.
Proof.
  apply (transitions_to_different_steps_are_apart demoSteps 1000 350 650
           {| state := resting 1; now := 0; timers := [] |}
           {| state := resting 0; now := 0; timers := [] |} 0 1);
    try reflexivity; discriminate.
Defined.

(* ------------------------------------------------------------------ *)
(** ** The last band and the first render *)

(** X5. The guard [sectionIndex < steps.length - 1] at work: with the page
    in the last band, [(N-1) * h <= s < N * h], a recomputation stores
    [N - 1] while [sectionProgress < 0.4] and keeps the current index
    otherwise; from the last band the index never moves on to [N]. *)
Theorem last_band_never_advances
    (steps : list Step) (s h : Q) (w : World) :
  steps <> [] -> 0 < h ->
  (inject_Z (Z.of_nat (List.length steps)) - 1) * h <= s ->
  s < inject_Z (Z.of_nat (List.length steps)) * h ->
  let win := window_at s h in
  let result := activeIndex (state (handleScroll steps win w)) in
  sectionIndex win = of_Z (Z.of_nat (List.length steps) - 1)
  /\ if ltb (sectionProgress win) (Fin (4 # 10))
     then result =v= of_Z (Z.of_nat (List.length steps) - 1)
     else result = activeIndex (state w).
Proof.
  intros Hne Hh Hlo Hhi. cbv zeta.
  assert (inject_Z (Z.of_nat (List.length steps)) - 1 <= s / h) as R1
    by (now apply Qle_div_iff).
  assert (s / h < inject_Z (Z.of_nat (List.length steps))) as R2
    by (now apply Qdiv_lt_iff).
  assert (Qfloor (s / h) = (Z.of_nat (List.length steps) - 1)%Z) as Hk.
  { apply Qfloor_unique; rewrite <- inject_Z_pred; unfold inject_Z at 2; lra. }
  rewrite sectionIndex_finite, sectionProgress_finite by assumption.
  rewrite Hk. split; [reflexivity|]. simpl ltb.
  destruct (newIndex_cases steps s h Hh (activeIndex (state w)))
    as [(F & K & E) | [(F & E) | (F & D & E)]]; rewrite Hk in *.
  - lia.
  - replace (Qlt_bool _ _) with true by (symmetry; now apply Qlt_bool_iff).
    eapply same_value_trans; [apply handleScroll_activeIndex|].
    rewrite E. apply same_value_refl.
  - replace (Qlt_bool _ _) with false
      by (symmetry; now apply Qlt_bool_false_iff).
    now apply handleScroll_retains.
Qed.

Lemma last_band_never_advances_witness :
  activeIndex (state (handleScroll demoSteps (window_at 1700 1000)
                        {| state := resting 1; now := 0; timers := [] |}))
    = of_Z 1.
Proof.
  apply (last_band_never_advances demoSteps 1700 1000
           {| state := resting 1; now := 0; timers := [] |});
    [discriminate | reflexivity | discriminate | reflexivity].
Defined.

(** X6. The call made on mount does not always find the page: when the
    component is mounted on a page already scrolled inside the dead zone of
    a band, [0.4 < s/h - floor(s/h) < 0.6], or beyond 40% of the last band
    or of a later one ([floor(s/h) >= N - 1]), at an offset clear of the
    marks, nothing is set and step 0 stays shown, whatever the band. *)
Theorem mount_in_dead_zone_shows_first_step
    (steps : list Step) (s h : Q) (t : Z) :
  0 < h ->
  off_marks h s = true ->
  (4 # 10) < s / h - inject_Z (Qfloor (s / h)) ->
  s / h - inject_Z (Qfloor (s / h)) < (6 # 10)
  \/ (Z.of_nat (List.length steps) - 1 <= Qfloor (s / h))%Z ->
  mount steps (window_at s h) t = mountWorld t.
Proof.
  intros Hh Hmarks Hlo Hhi. unfold mount, runEffect.
  apply handleScroll_no_transition. unfold transitions.
  destruct (newIndex_cases steps s h Hh (activeIndex (state (mountWorld t))))
    as [(F & K & E) | [(F & E) | (F & D & E)]].
  - destruct Hhi; [lra | lia].
  - lra.
  - rewrite E. reflexivity.
Qed.

Lemma mount_in_dead_zone_shows_first_step_witness :
  mount threeSteps (window_at 1500 1000) 0 = mountWorld 0.
Proof.
  apply (mount_in_dead_zone_shows_first_step threeSteps 1500 1000 0).
  - reflexivity.
  - reflexivity.
  - reflexivity.
  - left. reflexivity.
Defined.

(* ------------------------------------------------------------------ *)
(** ** What is rendered *)

Lemma currentStep_invalid (steps : list Step) (st : ScrollState) :
  valid_index (List.length steps) (activeIndex st) = false ->
  currentStep steps st = None.
Proof.
  unfold valid_index, currentStep, element_at.
  destruct (to_int (activeIndex st)) as [z|]; [|reflexivity].
  destruct (Z.leb_spec 0 z) as [Hpos|]; [|reflexivity]. simpl.
  intro Hlen. apply Z.ltb_ge in Hlen. apply nth_error_None. lia.
Qed.

Lemma currentStep_valid (steps : list Step) (st : ScrollState) :
  valid_index (List.length steps) (activeIndex st) = true ->
  exists (k : Z) (step : Step),
    to_int (activeIndex st) = Some k
    /\ nth_error steps (Z.to_nat k) = Some step
    /\ currentStep steps st = Some step.
Proof.
  unfold valid_index, currentStep, element_at.
  destruct (to_int (activeIndex st)) as [z|]; [|discriminate].
  intro H. apply andb_true_iff in H. destruct H as [H0 HN].
  rewrite H0. apply Z.ltb_lt in HN. apply Z.leb_le in H0.
  destruct (nth_error steps (Z.to_nat z)) as [step|] eqn:E.
  - exists z, step. auto.
  - apply nth_error_None in E. lia.
Qed.

(** X7. The step is rendered exactly when [activeIndex] is a position of
    [steps].  Then the step at that position is shown: its visual when it
    has a truthy one, the default layout with its title and body otherwise
    (also for a visual that is null, false, 0, NaN or the empty string).
    For every other [activeIndex] (negative, [steps.length] or more, not an
    integer) the default layout is rendered with no title and no body. *)
Theorem render_shows_step_of_valid_index
    (steps : list Step) (st : ScrollState) :
  if valid_index (List.length steps) (activeIndex st)
  then exists (k : Z) (step : Step),
         to_int (activeIndex st) = Some k
         /\ nth_error steps (Z.to_nat k) = Some step
         /\ content (render steps st)
            = match visual step with
              | Some v =>
                  if truthy v then CustomVisual v
                  else DefaultLayout (Some (title step)) (Some (body step))
              | None => DefaultLayout (Some (title step)) (Some (body step))
              end
  else currentStep steps st = None
       /\ content (render steps st) = DefaultLayout None None.
Proof.
  destruct (valid_index (List.length steps) (activeIndex st)) eqn:V.
  - destruct (currentStep_valid steps st V) as (k & step & Hk & Hnth & Hcur).
    exists k, step. split; [exact Hk|]. split; [exact Hnth|].
    unfold render. cbn [content]. rewrite Hcur. unfold renderContent.
    cbn [option_map]. destruct (visual step) as [v|]; [|reflexivity].
    destruct (truthy v); reflexivity.
  - pose proof (currentStep_invalid steps st V) as Hcur.
    split; [exact Hcur|]. unfold render. cbn [content]. now rewrite Hcur.
Qed.

(** X8. A transition plays the animation of its direction: right after it
    the keyed element has the new index as key and the class of the slide
    towards the new step (up when the index grew, down otherwise); once the
    600 ms have passed the class is empty again, and key and content are
    the same. *)
Theorem transition_plays_directional_animation
    (steps : list Step) (win : Window) (w : World) :
  transitions steps win (state w) = true ->
  let current := activeIndex (state w) in
  let w' := handleScroll steps win w in
  let later := advance (now w + 600) w' in
  key (render steps (state w')) = newIndex steps win current
  /\ animationClass (render steps (state w'))
     = (if gtb (newIndex steps win current) current
        then "animate-slide-up-fade-in"%string
        else "animate-slide-down-fade-in"%string)
  /\ animationClass (render steps (state later)) = EmptyString
  /\ key (render steps (state later)) = key (render steps (state w'))
  /\ content (render steps (state later)) = content (render steps (state w')).
Proof.
  intro T. cbv zeta.
  assert (isAnimating
            (state (advance (now w + 600) (handleScroll steps win w)))
          = false) as Hoff.
  { apply (advance_past_deadline _ (now w + 600)%Z); [|lia].
    rewrite (handleScroll_transition _ _ _ T). simpl.
    apply in_or_app. right. now left. }
  pose proof (advance_activeIndex (now w + 600) (handleScroll steps win w))
    as Hsame.
  split; [|split; [|split; [|split]]].
  - now rewrite (handleScroll_transition _ _ _ T).
  - rewrite (handleScroll_transition _ _ _ T). simpl.
    now destruct (gtb _ _).
  - unfold render. cbn [animationClass]. now rewrite Hoff.
  - unfold render. cbn [key]. exact Hsame.
  - unfold render. cbn [content]. unfold currentStep. now rewrite Hsame.
Qed.

Lemma transition_plays_directional_animation_witness :
  animationClass
    (render threeSteps
       (state (handleScroll threeSteps (window_at 1350 1000)
                 {| state := resting 2; now := 0; timers := [] |})))
    = "animate-slide-down-fade-in"%string.
Proof.
  apply (transition_plays_directional_animation threeSteps
           (window_at 1350 1000)
           {| state := resting 2; now := 0; timers := [] |}).
  reflexivity.
Defined.

Lemma object_is_strict_eqb (x y : number) :
  y <> NaN -> object_is x y = strict_eqb x y.
Proof. destruct x, y; try reflexivity. congruence. Qed.

(** X9. The keyed element is remounted exactly on a transition: for a
    current index other than NaN, the key rendered after a recomputation
    differs from the key before if and only if the recomputation changed
    the step; otherwise the whole view is the same.  Time passing never
    changes the key. *)
Theorem key_changes_exactly_on_transition
    (steps : list Step) (win : Window) (w : World) (t' : Z) :
  activeIndex (state w) <> NaN ->
  (object_is (key (render steps (state (handleScroll steps win w))))
             (key (render steps (state w))) = false
   <-> transitions steps win (state w) = true)
  /\ (transitions steps win (state w) = false ->
      render steps (state (handleScroll steps win w)) = render steps (state w))
  /\ key (render steps (state (advance t' w))) = key (render steps (state w)).
Proof.
  intro Hnan. unfold render. cbn [key]. split; [|split].
  - destruct (transitions steps win (state w)) eqn:T.
    + rewrite (handleScroll_transition _ _ _ T). cbn [state activeIndex].
      rewrite (object_is_strict_eqb _ _ Hnan).
      unfold transitions, strict_neb in T. apply negb_true_iff in T.
      rewrite T. split; reflexivity.
    + rewrite (handleScroll_no_transition _ _ _ T).
      assert (object_is (activeIndex (state w)) (activeIndex (state w)) = true)
        as -> by (apply object_is_iff, same_value_refl).
      split; discriminate.
  - intro T. now rewrite (handleScroll_no_transition _ _ _ T).
  - apply advance_activeIndex.
Qed.

Lemma key_changes_exactly_on_transition_witness :
  object_is
    (key (render demoSteps
            (state (handleScroll demoSteps (window_at 650 1000)
                      (mountWorld 0)))))
    (key (render demoSteps (state (mountWorld 0)))) = false.
Proof.
  apply (key_changes_exactly_on_transition demoSteps (window_at 650 1000)
           (mountWorld 0) 0).
  - discriminate.
  - reflexivity.
Defined.

(* ------------------------------------------------------------------ *)
(** ** Scrolling gently in both directions *)

Lemma Qfloor_ge (x : Q) (k : Z) : inject_Z k <= x -> (k <= Qfloor x)%Z.
Proof.
  intro H. apply Qfloor_resp_le in H. now rewrite Qfloor_Z in H.
Qed.

Lemma Qfloor_lt (x : Q) (k : Z) : x < inject_Z k -> (Qfloor x < k)%Z.
Proof.
  intro H. pose proof (Qfloor_le x) as F.
  assert (inject_Z (Qfloor x) < inject_Z k) as A by lra.
  now rewrite <- Zlt_Qlt in A.
Qed.

Section Gentle.

Variable steps : list Step.
Variable h : Q.
Hypothesis steps_nonempty : steps <> [].
Hypothesis h_pos : 0 < h.

(** Offsets one event apart in either direction, as fractions of the
    viewport height. *)
Lemma progress_near (s1 s2 : Q) :
  s2 - s1 <= (4 # 10) * h -> s1 - s2 <= (4 # 10) * h ->
  s2 / h - s1 / h <= (4 # 10) /\ s1 / h - s2 / h <= (4 # 10).
Proof.
  intros H1 H2. split.
  - assert (s2 / h - s1 / h == (s2 - s1) / h) as -> by (field; lra).
    now apply Qle_shift_div_r.
  - assert (s1 / h - s2 / h == (s1 - s2) / h) as -> by (field; lra).
    now apply Qle_shift_div_r.
Qed.

Lemma band_below_count (s : Q) :
  s < inject_Z (Z.of_nat (List.length steps)) * h ->
  (Qfloor (s / h) <= Z.of_nat (List.length steps) - 1)%Z.
Proof.
  intro HsN.
  assert (s / h < inject_Z (Z.of_nat (List.length steps))) as R
    by (now apply Qdiv_lt_iff).
  apply Qfloor_lt in R. lia.
Qed.

(** One scroll event of a gentle scroll: when the step shown lies between
    the step a forward scroll and the step a backward scroll would show at
    the previous offset, so it does at the new offset. *)
Lemma scrollEvent_between (s1 s2 : Q) (w : World) (k1 : Z) :
  s2 - s1 <= (4 # 10) * h -> s1 - s2 <= (4 # 10) * h ->
  s2 < inject_Z (Z.of_nat (List.length steps)) * h ->
  activeIndex (state w) =v= of_Z k1 ->
  (stepReached (List.length steps) h s1 <= k1
   <= backReached (List.length steps) h s1)%Z ->
  exists k2 : Z,
    activeIndex (state (scrollEvent steps (window_at s2 h) w)) =v= of_Z k2
    /\ (stepReached (List.length steps) h s2 <= k2
        <= backReached (List.length steps) h s2)%Z.
Proof.
  intros H1 H2 HsN Hw Hk1.
  rewrite scrollEvent_handleScroll
    by (eapply same_value_of_Z_not_NaN; exact Hw).
  destruct (progress_near s1 s2 H1 H2) as [G1 G2].
  pose proof (band_below_count s2 HsN) as HK.
  destruct (Qfloor_bounds (s2 / h)) as [F1 F2].
  unfold stepReached, backReached in *.
  destruct (newIndex_cases steps s2 h h_pos (activeIndex (state w)))
    as [(F & K & E) | [(F & E) | (F & D & E)]].
  - exists (Qfloor (s2 / h) + 1)%Z. split.
    + eapply same_value_trans; [apply handleScroll_activeIndex|].
      rewrite E. apply add_of_Z.
    + rewrite (Qfloor_unique (s2 / h + (4 # 10)) (Qfloor (s2 / h) + 1))
        by (rewrite inject_Z_plus; unfold inject_Z at 2; lra).
      rewrite (Qfloor_unique (s2 / h + (6 # 10)) (Qfloor (s2 / h) + 1))
        by (rewrite inject_Z_plus; unfold inject_Z at 2; lra).
      lia.
  - exists (Qfloor (s2 / h)). split.
    + eapply same_value_trans; [apply handleScroll_activeIndex|].
      rewrite E. apply same_value_refl.
    + rewrite (Qfloor_unique (s2 / h + (4 # 10)) (Qfloor (s2 / h))) by lra.
      rewrite (Qfloor_unique (s2 / h + (6 # 10)) (Qfloor (s2 / h))) by lra.
      lia.
  - exists k1. split.
    + now rewrite (handleScroll_retains _ _ _ E).
    + assert (Qfloor (s2 / h) <= Qfloor (s1 / h + (4 # 10)))%Z as L1
        by (apply Qfloor_ge; lra).
      assert (Qfloor (s1 / h + (6 # 10)) < Qfloor (s2 / h) + 2)%Z as U1.
      { apply Qfloor_lt. rewrite inject_Z_plus. unfold inject_Z at 2. lra. }
      assert (Qfloor (s2 / h) + 1 <= Qfloor (s2 / h + (6 # 10)))%Z as U2.
      { apply Qfloor_ge. rewrite inject_Z_plus. unfold inject_Z at 2. lra. }
      destruct D as [D | D].
      * assert (Qfloor (s2 / h + (4 # 10)) < Qfloor (s2 / h) + 1)%Z as L2.
        { apply Qfloor_lt. rewrite inject_Z_plus. unfold inject_Z at 2.
          lra. }
        lia.
      * lia.
Qed.

Lemma scrollThrough_between (rest : list Q) :
  forall (s1 : Q) (w : World) (k1 : Z),
    gentle_scroll ((4 # 10) * h) (s1 :: rest) ->
    Forall (fun s => s < inject_Z (Z.of_nat (List.length steps)) * h) rest ->
    activeIndex (state w) =v= of_Z k1 ->
    (stepReached (List.length steps) h s1 <= k1
     <= backReached (List.length steps) h s1)%Z ->
    Forall2 (fun s w' =>
               exists k : Z,
                 to_int (activeIndex (state w')) = Some k
                 /\ (stepReached (List.length steps) h s <= k
                     <= backReached (List.length steps) h s)%Z)
            rest (scrollThrough steps h rest w).
Proof.
  induction rest as [|s2 rest IH]; intros s1 w k1 Hg Hall Hw Hk1;
    [constructor|].
  destruct Hg as (H1 & H2 & Hg). inversion Hall as [|? ? HsN Hall']; subst.
  destruct (scrollEvent_between s1 s2 w k1 H1 H2 HsN Hw Hk1)
    as (k2 & Hw2 & Hk2).
  cbn [scrollThrough]. constructor.
  - exists k2. split; [|exact Hk2].
    rewrite (to_int_same_value _ _ Hw2). apply to_int_of_Z.
  - exact (IH s2 _ k2 Hg Hall' Hw2 Hk2).
Qed.

End Gentle.

(** X10. The step shown follows the page when it is scrolled gently.  After
    a mount at the top, through scroll events in any direction that move by
    at most 0.4 viewport heights each, stay inside the [N] bands and keep
    clear of the marks, the [activeIndex] is always a position [k]
    of [steps], it lies between the step a forward scroll and the step a
    backward scroll show at that offset, and the offset is at most 0.6
    viewport heights away from [k * h] (the last step stays shown to the
    end of the last band). *)
Theorem gentle_scroll_keeps_step_near_offset
    (steps : list Step) (h : Q) (rest : list Q) (t : Z) :
  let n := Z.of_nat (List.length steps) in
  steps <> [] -> 0 < h ->
  gentle_scroll ((4 # 10) * h) (0 :: rest) ->
  Forall (fun s => 0 <= s /\ s < inject_Z n * h) rest ->
  Forall (fun s => off_marks h s = true) rest ->
  Forall2 (fun s w =>
             exists k : Z,
               to_int (activeIndex (state w)) = Some k
               /\ (0 <= k < n)%Z
               /\ (stepReached (List.length steps) h s <= k
                   <= backReached (List.length steps) h s)%Z
               /\ (inject_Z k - (6 # 10)) * h <= s
               /\ (s < (inject_Z k + (6 # 10)) * h \/ k = (n - 1)%Z))
          (0 :: rest) (session steps h (0 :: rest) t).
Proof.
  cbv zeta. intros Hne Hh Hg Hall Hmarks.
  pose proof (length_pos steps Hne) as Hn.
  assert (Forall2 (fun s w =>
                     exists k : Z,
                       to_int (activeIndex (state w)) = Some k
                       /\ (stepReached (List.length steps) h s <= k
                           <= backReached (List.length steps) h s)%Z)
                  (0 :: rest) (session steps h (0 :: rest) t)) as Hbetween.
  { assert (backReached (List.length steps) h 0 = 0%Z) as Hb0.
    { unfold backReached.
      assert (0 / h == 0) as E by (field; lra).
      rewrite (Qfloor_unique (0 / h + (6 # 10)) 0);
        [lia | unfold inject_Z; lra | unfold inject_Z; lra]. }
    assert (mount steps (window_at 0 h) t = mountWorld t) as Hm.
    { apply handleScroll_no_transition. unfold transitions.
      destruct (newIndex_cases steps 0 h Hh
                  (activeIndex (state (mountWorld t))))
        as [(F & K & E) | [(F & E) | (F & D & E)]]; rewrite E.
      - assert (0 / h == 0) as E0 by (field; lra).
        rewrite (Qfloor_unique (0 / h) 0) in F
          by (unfold inject_Z; lra).
        unfold inject_Z in F. lra.
      - rewrite (Qfloor_unique (0 / h) 0); [reflexivity | |];
          assert (0 / h == 0) as E0 by (field; lra); unfold inject_Z; lra.
      - reflexivity. }
    unfold session. cbv zeta. rewrite Hm. constructor.
    - exists 0%Z. split; [reflexivity|].
      rewrite (stepReached_start steps h Hne Hh), Hb0. lia.
    - apply (scrollThrough_between steps h Hh rest 0 (mountWorld t) 0%Z).
      + exact Hg.
      + eapply Forall_impl; [|exact Hall]. intros s [_ Hs]. exact Hs.
      + apply same_value_refl.
      + rewrite (stepReached_start steps h Hne Hh), Hb0. lia. }
  assert (Forall (fun s => 0 <= s
                           /\ s < inject_Z (Z.of_nat (List.length steps)) * h)
                 (0 :: rest)) as Hall0.
  { constructor; [|exact Hall]. split; [lra|].
    apply Qmult_lt_0_compat; [|exact Hh].
    change 0 with (inject_Z 0). rewrite <- Zlt_Qlt. lia. }
  clear Hg Hall.
  revert Hall0. induction Hbetween as [|s w ss ws (k & Hk & Hlo & Hhi) _ IH];
    intro Hall0; [constructor|].
  inversion Hall0 as [|? ? [Hs0 HsN] Hall']; subst.
  constructor; [|exact (IH Hall')].
  exists k. split; [exact Hk|].
  unfold stepReached in Hlo. unfold backReached in Hhi.
  assert (0 <= s / h) as R0 by (apply Qle_div_iff; [assumption | lra]).
  assert (0 <= Qfloor (s / h + (4 # 10)))%Z as A0
    by (apply Qfloor_ge; unfold inject_Z; lra).
  destruct (Qfloor_bounds (s / h + (4 # 10))) as [A1 A2].
  destruct (Qfloor_bounds (s / h + (6 # 10))) as [B1 B2].
  split; [lia|]. split; [unfold stepReached, backReached; lia|].
  assert (inject_Z k <= inject_Z (Qfloor (s / h + (6 # 10)))) as Uk
    by (rewrite <- Zle_Qle; lia).
  split.
  - apply Qle_div_iff; [assumption | lra].
  - destruct (Z.eq_dec k (Z.of_nat (List.length steps) - 1)) as [-> | Hneq];
      [now right|].
    left. apply Qdiv_lt_iff; [assumption|].
    assert (inject_Z (Qfloor (s / h + (4 # 10))) <= inject_Z k) as Lk
      by (rewrite <- Zle_Qle; lia).
    lra.
Qed.

Lemma gentle_scroll_keeps_step_near_offset_witness :
  Forall2 (fun s w =>
             exists k : Z,
               to_int (activeIndex (state w)) = Some k
               /\ (0 <= k < 3)%Z
               /\ (stepReached 3 1000 s <= k <= backReached 3 1000 s)%Z
               /\ (inject_Z k - (6 # 10)) * 1000 <= s
               /\ (s < (inject_Z k + (6 # 10)) * 1000 \/ k = (3 - 1)%Z))
          [0; 300; 700; 500; 900; 1300; 1000]
          (session threeSteps 1000 [0; 300; 700; 500; 900; 1300; 1000] 0).
Proof.
  apply (gentle_scroll_keeps_step_near_offset threeSteps 1000
           [300; 700; 500; 900; 1300; 1000] 0).
  - discriminate.
  - reflexivity.
  - simpl. repeat split; discriminate.
  - repeat constructor; discriminate.
  - repeat constructor.
Defined.

(* ------------------------------------------------------------------ *)
(** ** Scrolling back up *)

Section Backward.

Variable steps : list Step.
Variable h : Q.
Hypothesis h_pos : 0 < h.

(** From one event of a backward scroll to the next, the step stays or
    goes down by one. *)
Lemma backReached_next (s1 s2 : Q) :
  s2 <= s1 -> s1 - s2 <= (4 # 10) * h ->
  (backReached (List.length steps) h s2 = backReached (List.length steps) h s1
   \/ backReached (List.length steps) h s2
      = backReached (List.length steps) h s1 - 1)%Z.
Proof.
  intros H1 H2. destruct (progress_gap h h_pos s2 s1 H1 H2) as [G1 G2].
  unfold backReached.
  assert (Qfloor (s2 / h + (6 # 10)) <= Qfloor (s1 / h + (6 # 10)))%Z as M
    by (apply Qfloor_resp_le; lra).
  destruct (Qfloor_bounds (s2 / h + (6 # 10))) as [B1 B2].
  assert (Qfloor (s1 / h + (6 # 10)) < Qfloor (s2 / h + (6 # 10)) + 2)%Z as C.
  { apply Qfloor_lt. rewrite inject_Z_plus. unfold inject_Z at 2. lra. }
  lia.
Qed.

Lemma scrollEvent_backReached (s1 s2 : Q) (w : World) :
  s2 <= s1 -> s1 - s2 <= (4 # 10) * h ->
  s2 < inject_Z (Z.of_nat (List.length steps)) * h ->
  activeIndex (state w) =v= of_Z (backReached (List.length steps) h s1) ->
  activeIndex (state (scrollEvent steps (window_at s2 h) w))
    =v= of_Z (backReached (List.length steps) h s2).
Proof.
  intros H1 H2 HsN Hw.
  rewrite scrollEvent_handleScroll
    by (eapply same_value_of_Z_not_NaN; exact Hw).
  eapply same_value_trans; [apply handleScroll_activeIndex|].
  destruct (progress_gap h h_pos s2 s1 H1 H2) as [G1 G2].
  pose proof (band_below_count steps h h_pos s2 HsN) as HK.
  destruct (Qfloor_bounds (s2 / h)) as [F1 F2].
  destruct (newIndex_cases steps s2 h h_pos (activeIndex (state w)))
    as [(F & K & E) | [(F & E) | (F & D & E)]]; rewrite E.
  - unfold backReached.
    rewrite (Qfloor_unique (s2 / h + (6 # 10)) (Qfloor (s2 / h) + 1))
      by (rewrite inject_Z_plus; unfold inject_Z at 2; lra).
    replace (Z.min (Qfloor (s2 / h) + 1) (Z.of_nat (List.length steps) - 1))
      with (Qfloor (s2 / h) + 1)%Z by lia.
    apply add_of_Z.
  - unfold backReached.
    rewrite (Qfloor_unique (s2 / h + (6 # 10)) (Qfloor (s2 / h))) by lra.
    replace (Z.min (Qfloor (s2 / h)) (Z.of_nat (List.length steps) - 1))
      with (Qfloor (s2 / h)) by lia.
    apply same_value_refl.
  - eapply same_value_trans; [exact Hw|].
    replace (backReached (List.length steps) h s1)
      with (backReached (List.length steps) h s2);
      [apply same_value_refl|].
    unfold backReached.
    assert (Qfloor (s2 / h) + 1 <= Qfloor (s2 / h + (6 # 10)))%Z as U2.
    { apply Qfloor_ge. rewrite inject_Z_plus. unfold inject_Z at 2. lra. }
    assert (Qfloor (s2 / h + (6 # 10)) <= Qfloor (s1 / h + (6 # 10)))%Z as M
      by (apply Qfloor_resp_le; lra).
    destruct D as [D | D]; [|lia].
    assert (Qfloor (s1 / h + (6 # 10)) < Qfloor (s2 / h) + 2)%Z as U1.
    { apply Qfloor_lt. rewrite inject_Z_plus. unfold inject_Z at 2. lra. }
    lia.
Qed.

Lemma scrollThrough_backReached (rest : list Q) :
  forall (s1 : Q) (w : World),
    backward_scroll ((4 # 10) * h) (s1 :: rest) ->
    s1 < inject_Z (Z.of_nat (List.length steps)) * h ->
    activeIndex (state w) =v= of_Z (backReached (List.length steps) h s1) ->
    activeIndices (scrollThrough steps h rest w)
      = map (fun s => Some (backReached (List.length steps) h s)) rest.
Proof.
  induction rest as [|s2 rest IH]; intros s1 w Hbw Hs1 Hw; [reflexivity|].
  destruct Hbw as (H1 & H2 & Hbw).
  assert (s2 < inject_Z (Z.of_nat (List.length steps)) * h) as Hs2 by lra.
  pose proof (scrollEvent_backReached s1 s2 w H1 H2 Hs2 Hw) as Hw'.
  cbn [scrollThrough]. unfold activeIndices. cbn [map]. f_equal.
  - rewrite (to_int_same_value _ _ Hw'). apply to_int_of_Z.
  - exact (IH s2 _ Hbw Hs2 Hw').
Qed.

(** Between two consecutive events of a backward scroll the step changes
    exactly when the new offset lies below 40% of the band just under the
    step shown so far. *)
Lemma backReached_changes (s1 s2 : Q) :
  s2 <= s1 -> s1 - s2 <= (4 # 10) * h ->
  s2 < inject_Z (Z.of_nat (List.length steps)) * h ->
  let k := backReached (List.length steps) h s1 in
  let k' := backReached (List.length steps) h s2 in
  k' <> k <->
  sectionIndex (window_at s2 h) = of_Z (k - 1)
  /\ ltb (sectionProgress (window_at s2 h)) (Fin (4 # 10)) = true.
Proof.
  intros H1 H2 HsN. cbv zeta.
  destruct (progress_gap h h_pos s2 s1 H1 H2) as [G1 G2].
  pose proof (band_below_count steps h h_pos s2 HsN) as HK.
  rewrite sectionIndex_finite, sectionProgress_finite by assumption.
  destruct (Qfloor_bounds (s2 / h)) as [F1 F2].
  destruct (Qfloor_bounds (s1 / h + (6 # 10))) as [A1 A2].
  destruct (Qfloor_bounds (s2 / h + (6 # 10))) as [B1 B2].
  cbn [ltb]. split.
  - intro Hne.
    destruct (backReached_next s1 s2 H1 H2) as [E | E]; [congruence|].
    unfold backReached in E |- *.
    assert (Qfloor (s2 / h + (6 # 10)) + 1 <= Qfloor (s1 / h + (6 # 10))
            /\ Z.min (Qfloor (s1 / h + (6 # 10)))
                     (Z.of_nat (List.length steps) - 1) - 1
               = Qfloor (s2 / h + (6 # 10)))%Z as [L1 L2] by lia.
    assert (inject_Z (Qfloor (s2 / h + (6 # 10)) + 1)
            <= inject_Z (Qfloor (s1 / h + (6 # 10)))) as C
      by (rewrite <- Zle_Qle; lia).
    rewrite inject_Z_plus in C. unfold inject_Z at 2 in C.
    assert (Qfloor (s2 / h) = Qfloor (s2 / h + (6 # 10))) as F
      by (apply Qfloor_unique; lra).
    assert (s2 / h - inject_Z (Qfloor (s2 / h)) < (4 # 10)) as P
      by (rewrite F; lra).
    rewrite L2, <- F. split; [reflexivity|].
    apply Qlt_bool_iff. exact P.
  - intros (F & P). apply of_Z_inj in F. apply Qlt_bool_iff in P.
    unfold backReached at 1.
    rewrite (Qfloor_unique (s2 / h + (6 # 10)) (Qfloor (s2 / h))) by lra.
    lia.
Qed.

End Backward.

Lemma backward_scroll_adjacent (delta : Q) (l : list Q) :
  forall (i : nat) (s1 s2 : Q),
    backward_scroll delta l ->
    nth_error l i = Some s1 -> nth_error l (S i) = Some s2 ->
    s2 <= s1 /\ s1 - s2 <= delta.
Proof.
  induction l as [|a l IH]; intros i s1 s2 Hbw N1 N2.
  - destruct i; discriminate.
  - destruct l as [|b l]; [destruct i; discriminate|].
    destruct Hbw as (H1 & H2 & Hbw). destruct i as [|i].
    + simpl in N1, N2. injection N1 as <-. injection N2 as <-. now split.
    + apply (IH i); assumption.
Qed.

(** A backward scroll stays below its first offset. *)
Lemma backward_scroll_below_first (delta : Q) (l : list Q) :
  forall a : Q,
    backward_scroll delta (a :: l) -> Forall (fun s => s <= a) (a :: l).
Proof.
  induction l as [|b l IH]; intros a Hbw.
  - constructor; [lra | constructor].
  - destruct Hbw as (H1 & H2 & Hbw). constructor; [lra|].
    eapply Forall_impl; [|exact (IH b Hbw)].
    intros s Hs. simpl in Hs. lra.
Qed.

Lemma downstairs_backReached (steps : list Step) (h : Q) (l : list Q) :
  0 < h -> backward_scroll ((4 # 10) * h) l ->
  downstairs (map (backReached (List.length steps) h) l).
Proof.
  intro Hh. induction l as [|a l IH]; intro Hbw; [exact I|].
  destruct l as [|b l]; [exact I|].
  destruct Hbw as (H1 & H2 & Hbw). split.
  - exact (backReached_next steps h Hh a b H1 H2).
  - apply IH. exact Hbw.
Qed.

Lemma visited_downstairs (rest : list Z) :
  forall a : Z,
    downstairs (a :: rest) ->
    exists len : nat,
      visited (a :: rest) = downfrom a (S len)
      /\ last (a :: rest) a = (a - Z.of_nat len)%Z.
Proof.
  induction rest as [|b rest IH]; intros a Hst.
  - exists O. simpl. split; [reflexivity | lia].
  - destruct Hst as [Hb Hst]. destruct (IH b Hst) as (len & Hv & Hl).
    change (last (a :: b :: rest) a) with (last (b :: rest) a).
    rewrite (last_default rest b a b), Hl.
    change (visited (a :: b :: rest))
      with (if (a =? b)%Z then visited (b :: rest)
            else a :: visited (b :: rest)).
    destruct Hb as [-> | ->].
    + rewrite Z.eqb_refl. exists len. split; [assumption | reflexivity].
    + replace (a =? a - 1)%Z with false by (symmetry; apply Z.eqb_neq; lia).
      exists (S len). split.
      * rewrite Hv. reflexivity.
      * lia.
Qed.

Lemma downfrom_snoc (len : nat) :
  forall b : Z, downfrom b (S len) = downfrom b len ++ [(b - Z.of_nat len)%Z].
Proof.
  induction len as [|len IH]; intro b.
  - simpl. f_equal. lia.
  - change (downfrom b (S (S len))) with (b :: downfrom (b - 1) (S len)).
    rewrite (IH (b - 1)%Z). simpl. do 3 f_equal. lia.
Qed.

Lemma rev_upfrom (len : nat) :
  forall a : Z, rev (upfrom a len) = downfrom (a + Z.of_nat len - 1) len.
Proof.
  induction len as [|len IH]; intro a; [reflexivity|].
  cbn [upfrom rev]. rewrite (IH (a + 1)%Z), downfrom_snoc.
  f_equal; [f_equal; lia | f_equal; lia].
Qed.

Lemma last_in {A : Type} (l : list A) (a : A) : In (last (a :: l) a) (a :: l).
Proof.
  revert a. induction l as [|b l IH]; intro a; [now left|].
  change (last (a :: b :: l) a) with (last (b :: l) a).
  rewrite (last_default l b a b). right. apply IH.
Qed.

(** X11. Scrolling back up.  The component is mounted on a page at the
    bottom (in the last band, below 40% of it) and the page is scrolled
    back to the top without ever going forward, by at most 0.4 viewport
    heights per event, all offsets keeping clear of the marks.  Then
    [activeIndex] never increases and shows the
    steps N-1, ..., 1, 0 in this order, each once; an event changes the
    step, from [k] to [k - 1], exactly when its offset lies in band
    [k - 1] with [sectionProgress < 0.4]. *)
Theorem backward_scroll_visits_each_step_once
    (steps : list Step) (h s0 : Q) (rest : list Q) (t : Z) :
  let n := Z.of_nat (List.length steps) in
  let offsets := s0 :: rest in
  steps <> [] -> 0 < h ->
  (inject_Z n - 1) * h <= s0 -> s0 < (inject_Z n - 1 + (4 # 10)) * h ->
  backward_scroll ((4 # 10) * h) offsets ->
  Forall (fun s => 0 <= s) offsets ->
  last offsets s0 < (4 # 10) * h ->
  Forall (fun s => off_marks h s = true) offsets ->
  exists zs : list Z,
    activeIndices (session steps h offsets t) = map Some zs
    /\ visited zs = rev (map Z.of_nat (seq 0 (List.length steps)))
    /\ forall (i : nat) (s : Q) (k k' : Z),
         nth_error offsets (S i) = Some s ->
         nth_error zs i = Some k -> nth_error zs (S i) = Some k' ->
         (k' <= k)%Z
         /\ (k' <> k <->
             sectionIndex (window_at s h) = of_Z (k - 1)
             /\ ltb (sectionProgress (window_at s h)) (Fin (4 # 10)) = true)
         /\ (k' <> k -> k' = (k - 1)%Z).
Proof.
  cbv zeta. intros Hne Hh Hlo Hhi Hbw Hpos Hlast Hmarks.
  pose proof (length_pos steps Hne) as Hn.
  assert (inject_Z (Z.of_nat (List.length steps)) - 1 <= s0 / h) as R1
    by (now apply Qle_div_iff).
  assert (s0 / h < inject_Z (Z.of_nat (List.length steps)) - 1 + (4 # 10))
    as R2 by (now apply Qdiv_lt_iff).
  assert (s0 < inject_Z (Z.of_nat (List.length steps)) * h) as HsN
    by (apply Qdiv_lt_iff; [assumption | lra]).
  assert (Qfloor (s0 / h) = (Z.of_nat (List.length steps) - 1)%Z) as Hk0.
  { apply Qfloor_unique; rewrite <- inject_Z_pred; unfold inject_Z at 2; lra. }
  assert (backReached (List.length steps) h s0
          = (Z.of_nat (List.length steps) - 1)%Z) as Hb0.
  { unfold backReached.
    rewrite (Qfloor_unique (s0 / h + (6 # 10))
               (Z.of_nat (List.length steps) - 1));
      [lia | |]; rewrite <- inject_Z_pred; unfold inject_Z at 2; lra. }
  assert (activeIndex (state (mount steps (window_at s0 h) t))
            =v= of_Z (backReached (List.length steps) h s0)) as Hw.
  { unfold mount, runEffect.
    eapply same_value_trans; [apply handleScroll_activeIndex|].
    destruct (newIndex_cases steps s0 h Hh (activeIndex (state (mountWorld t))))
      as [(F & K & E) | [(F & E) | (F & D & E)]]; rewrite Hk0 in *.
    - lia.
    - rewrite E, Hb0. apply same_value_refl.
    - rewrite <- inject_Z_pred in F. unfold inject_Z at 2 in F. lra. }
  exists (map (backReached (List.length steps) h) (s0 :: rest)).
  split; [|split].
  - unfold session. cbv zeta. unfold activeIndices. cbn [map]. f_equal.
    + rewrite (to_int_same_value _ _ Hw). apply to_int_of_Z.
    + rewrite map_map.
      exact (scrollThrough_backReached steps h Hh rest s0 _ Hbw HsN Hw).
  - pose proof (downstairs_backReached steps h (s0 :: rest) Hh Hbw) as Hst.
    cbn [map] in Hst |- *.
    destruct (visited_downstairs _ _ Hst) as (len & Hv & Hl).
    change (backReached (List.length steps) h s0
              :: map (backReached (List.length steps) h) rest)
      with (map (backReached (List.length steps) h) (s0 :: rest)) in Hl.
    rewrite last_map_cons in Hl.
    assert (backReached (List.length steps) h (last (s0 :: rest) s0) = 0%Z)
      as Hend.
    { pose proof (last_in rest s0) as Hin.
      rewrite Forall_forall in Hpos. specialize (Hpos _ Hin).
      assert (0 <= last (s0 :: rest) s0 / h) as Q0
        by (apply Qle_div_iff; [assumption | lra]).
      assert (last (s0 :: rest) s0 / h < (4 # 10)) as Q1
        by (now apply Qdiv_lt_iff).
      unfold backReached.
      rewrite (Qfloor_unique (last (s0 :: rest) s0 / h + (6 # 10)) 0);
        [lia | unfold inject_Z; lra | unfold inject_Z; lra]. }
    rewrite Hend, Hb0 in Hl.
    rewrite Hv, Hb0, upfrom_seq, rev_upfrom. change (Z.of_nat 0) with 0%Z.
    f_equal; lia.
  - intros i s k k' Ns Nk Nk'.
    rewrite nth_error_map in Nk, Nk'. rewrite Ns in Nk'.
    simpl in Nk'. injection Nk' as <-.
    destruct (nth_error (s0 :: rest) i) as [s1|] eqn:N1; [|discriminate].
    simpl in Nk. injection Nk as <-.
    destruct (backward_scroll_adjacent _ _ i s1 s Hbw N1 Ns) as [H1 H2].
    assert (s < inject_Z (Z.of_nat (List.length steps)) * h) as HsN'.
    { pose proof (backward_scroll_below_first _ _ _ Hbw) as Hb.
      rewrite Forall_forall in Hb.
      assert (In s (s0 :: rest)) as Hin
        by (eapply nth_error_In; exact Ns).
      specialize (Hb _ Hin). simpl in Hb. lra. }
    pose proof (backReached_changes steps h Hh s1 s H1 H2 HsN') as Hiff.
    pose proof (backReached_next steps h Hh s1 s H1 H2) as Hnext.
    split; [lia|]. split; [exact Hiff | lia].
Qed.

Lemma backward_scroll_visits_each_step_once_witness :
  exists zs : list Z,
    activeIndices
      (session threeSteps 1000 [2000; 1700; 1300; 900; 500; 300; 0] 0)
      = map Some zs
    /\ visited zs = [2; 1; 0]%Z.
Proof.
  destruct (backward_scroll_visits_each_step_once threeSteps 1000 2000
              [1700; 1300; 900; 500; 300; 0] 0)
    as (zs & Htrace & Hvisit & _).
  - discriminate.
  - reflexivity.
  - discriminate.
  - reflexivity.
  - simpl. repeat split; discriminate.
  - repeat constructor; discriminate.
  - reflexivity.
  - repeat constructor.
  - exists zs. split; [exact Htrace | exact Hvisit].
Defined.

(* ------------------------------------------------------------------ *)
(** ** The listener and the state it closed over *)

Lemma callListener_handleScroll
    (steps : list Step) (win : Window) (l : Listener) (w : World) :
  captured l = activeIndex (state w) ->
  callListener steps win l w = handleScroll steps win w.
Proof. intro H. unfold callListener, handleScroll. now rewrite H. Qed.

Lemma object_is_after_handleScroll
    (steps : list Step) (win : Window) (w : World) :
  activeIndex (state w) <> NaN ->
  object_is (activeIndex (state (handleScroll steps win w)))
            (activeIndex (state w))
    = negb (transitions steps win (state w)).
Proof.
  intro Hnan. destruct (transitions steps win (state w)) eqn:T.
  - rewrite (handleScroll_transition _ _ _ T). cbn [state activeIndex].
    rewrite (object_is_strict_eqb _ _ Hnan).
    unfold transitions, strict_neb in T. now apply negb_true_iff in T.
  - rewrite (handleScroll_no_transition _ _ _ T).
    apply object_is_iff, same_value_refl.
Qed.

Lemma handleScroll_not_NaN (steps : list Step) (win : Window) (w : World) :
  activeIndex (state w) <> NaN ->
  activeIndex (state (handleScroll steps win w)) <> NaN.
Proof.
  intro Hnan.
  destruct (newIndex_assigned_or_kept steps win) as [(_ & q & Hq) | (_ & Hk)].
  - destruct (transitions steps win (state w)) eqn:T.
    + rewrite (handleScroll_transition _ _ _ T). simpl. rewrite Hq.
      discriminate.
    + now rewrite (handleScroll_no_transition _ _ _ T).
  - now rewrite (handleScroll_retains _ _ _ (Hk _)).
Qed.

(** The render after the listeners ran, for a host whose one listener had
    closed over the index that was current: the effect runs again at most
    once, and leaves one listener, closed over the new index. *)
Lemma commit_after_listener
    (steps : list Step) (win : Window) (fuel : nat)
    (w : World) (l : Listener) (next : nat) :
  captured l = activeIndex (state w) -> activeIndex (state w) <> NaN ->
  let hst' := commit steps win (S fuel)
                {| world := handleScroll steps win w;
                   listeners := [l];
                   installed := Some l;
                   nextId := next |} in
  world hst' = scrollEvent steps win w /\ settled hst'.
Proof.
  intros Hcap Hnan. cbv zeta.
  rewrite (scrollEvent_handleScroll _ _ _ Hnan).
  cbn [commit installed world]. rewrite Hcap.
  rewrite (object_is_after_handleScroll _ _ _ Hnan).
  destruct (transitions steps win (state w)) eqn:T; cbn [negb].
  - unfold effectCleanup. cbn [installed listeners world nextId filter].
    rewrite Nat.eqb_refl. cbn [negb].
    unfold effectBody. cbn [world listeners nextId app].
    rewrite callListener_handleScroll by reflexivity.
    rewrite (handleScroll_idempotent _ _ _ Hnan).
    assert (forall hst : Host,
              (exists l', listeners hst = [l'] /\ installed hst = Some l'
                          /\ captured l' = activeIndex (state (world hst))) ->
              commit steps win fuel hst = hst) as Hstable.
    { intros hst (l' & _ & Hi & Hc). destruct fuel as [|fuel']; [reflexivity|].
      cbn [commit]. rewrite Hi, Hc.
      assert (object_is (activeIndex (state (world hst)))
                        (activeIndex (state (world hst))) = true) as ->
        by (apply object_is_iff, same_value_refl).
      reflexivity. }
    rewrite Hstable.
    + split; [reflexivity|]. eexists. cbn. repeat split.
    + eexists. cbn. repeat split.
  - split; [reflexivity|]. exists l. cbn. repeat split.
    now rewrite (handleScroll_no_transition _ _ _ T).
Qed.

Lemma dispatchScroll_settled
    (steps : list Step) (win : Window) (fuel : nat) (hst : Host) :
  settled hst -> activeIndex (state (world hst)) <> NaN ->
  world (dispatchScroll steps win (S fuel) hst)
    = scrollEvent steps win (world hst)
  /\ settled (dispatchScroll steps win (S fuel) hst).
Proof.
  intros (l & Hl & Hi & Hc) Hnan. unfold dispatchScroll.
  rewrite Hl, Hi. cbn [fold_left].
  rewrite (callListener_handleScroll _ _ _ _ Hc).
  exact (commit_after_listener steps win fuel (world hst) l (nextId hst)
           Hc Hnan).
Qed.

Lemma mountHost_settled
    (steps : list Step) (win : Window) (t : Z) (fuel : nat) :
  world (mountHost steps win t (S fuel)) = mount steps win t
  /\ settled (mountHost steps win t (S fuel)).
Proof.
  unfold mountHost, effectBody. cbn [world listeners nextId app].
  rewrite callListener_handleScroll by reflexivity.
  destruct (commit_after_listener steps win fuel (mountWorld t)
              {| listenerId := 0;
                 captured := activeIndex (state (mountWorld t)) |}
              1%nat eq_refl) as [Hw Hs]; [discriminate|].
  split; [|exact Hs]. rewrite Hw.
  apply scrollEvent_handleScroll. discriminate.
Qed.

Lemma scrollEvent_not_NaN (steps : list Step) (win : Window) (w : World) :
  activeIndex (state w) <> NaN ->
  activeIndex (state (scrollEvent steps win w)) <> NaN.
Proof.
  intro Hnan. rewrite (scrollEvent_handleScroll _ _ _ Hnan).
  now apply handleScroll_not_NaN.
Qed.

(** X12. The handler never runs on a stale index, and no listener leaks.
    From mount on, through any scroll events and any lapse of time (each
    event being handled before the next one arrives), the window has
    exactly one scroll listener of the component, the one of the last
    effect run, and the [activeIndex] it closed over is the current one;
    so the component behaves as if the handler read the current state: its
    world is the one [scrollEvent] and [advance] compute.  One re-run of the
    effect per event is all it takes. *)
Theorem one_listener_closed_over_current_index
    (steps : list Step) (win0 : Window) (t : Z) (fuel : nat)
    (events : list Event) :
  let hst := runHost steps (S fuel) events (mountHost steps win0 t (S fuel)) in
  world hst = runEvents steps events (mount steps win0 t)
  /\ exists l : Listener,
       listeners hst = [l] /\ installed hst = Some l
       /\ captured l = activeIndex (state (world hst)).
Proof.
  cbv zeta. unfold runHost, runEvents.
  destruct (mountHost_settled steps win0 t fuel) as [Hw Hs].
  assert (activeIndex (state (mount steps win0 t)) <> NaN) as Hnan
    by (apply handleScroll_not_NaN; discriminate).
  revert Hw Hs Hnan.
  generalize (mountHost steps win0 t (S fuel)) as hst.
  generalize (mount steps win0 t) as w.
  induction events as [|e events IH]; intros w hst Hw Hs Hnan.
  - split; [exact Hw | exact Hs].
  - cbn [fold_left]. apply IH.
    + destruct e as [win | dt]; cbn [applyHostEvent applyEvent].
      * rewrite <- Hw in Hnan. rewrite <- Hw.
        exact (proj1 (dispatchScroll_settled steps win fuel hst Hs Hnan)).
      * cbn [world]. now rewrite Hw.
    + destruct e as [win | dt]; cbn [applyHostEvent].
      * rewrite <- Hw in Hnan.
        exact (proj2 (dispatchScroll_settled steps win fuel hst Hs Hnan)).
      * destruct Hs as (l & Hl & Hi & Hc). exists l.
        cbn [listeners installed world].
        repeat split; auto. now rewrite advance_activeIndex.
    + destruct e as [win | dt]; cbn [applyEvent].
      * now apply scrollEvent_not_NaN.
      * now rewrite advance_activeIndex.
Qed.

(** X13. Unmounting removes the listener and nothing else.  After the
    cleanup of a settled host the window has no scroll listener of the
    component left, so scroll events no longer change anything; the world
    is as it was, and in particular the pending [setTimeout] callbacks are
    not cancelled. *)
Theorem unmount_removes_listener_only
    (steps : list Step) (win : Window) (fuel : nat) (hst : Host) :
  settled hst ->
  listeners (unmount hst) = []
  /\ world (unmount hst) = world hst
  /\ timers (world (unmount hst)) = timers (world hst)
  /\ dispatchScroll steps win fuel (unmount hst) = unmount hst.
Proof.
  intros (l & Hl & Hi & Hc). unfold unmount, effectCleanup.
  rewrite Hi, Hl. cbn [filter]. rewrite Nat.eqb_refl. cbn [negb].
  repeat split.
  unfold dispatchScroll. cbn [listeners world installed nextId fold_left].
  destruct fuel; reflexivity.
Qed.

Lemma unmount_removes_listener_only_witness :
  listeners (unmount (mountHost demoSteps (window_at 650 1000) 0 1)) = []
  /\ timers (world (unmount (mountHost demoSteps (window_at 650 1000) 0 1)))
     = [600%Z].
Proof.
  destruct (unmount_removes_listener_only demoSteps (window_at 0 1000) 1
              (mountHost demoSteps (window_at 650 1000) 0 1))
    as (H1 & _ & H3 & _).
  - eexists. repeat split.
  - split; [exact H1 | exact H3].
Defined.

(* ------------------------------------------------------------------ *)
(** ** Offsets outside the bands *)


